(** * Neighbor normalization: the three vendor extractors of [neighbor_info.py]

    A shallow embedding of [src/neighbor_info.py] and of the adapter classes
    of [src/switches.py], and the properties of the extractors checked on it.

    - Python [str] is a list of code points; the development works on the
      Latin-1 range, one [ascii] per code point.
    - Python values that travel through the extractors (decoded JSON, the
      records built, [None]) are the inductive type [pyval].
    - External collaborators (the HTTP client, the CLI session, the eAPI
      node, the terminal) are variables of a section: a transition on an
      abstract world that returns a value or raises.
    - Effects are threaded by a small state-and-exception monad. *)

From Stdlib Require Import Ascii String ZArith Lia Bool Arith List.
Import ListNotations.

Set Implicit Arguments.

(* ================================================================= *)
(** ** Text *)

(** A Python [str] (and [bytes]): its characters in order. *)
Definition str := list ascii.

(** A string literal. *)
Definition lit (s : string) : str := list_ascii_of_string s.

Definition nl : ascii := "010"%char.
Definition sp : ascii := " "%char.

(** [a == b] on strings. *)
Definition str_eqb (a b : str) : bool :=
  if list_eq_dec ascii_dec a b then true else false.

(** [s.startswith(p)] *)
Fixpoint startswith (p s : str) : bool :=
  match p, s with
  | [], _ => true
  | _ :: _, [] => false
  | a :: p', b :: s' => Ascii.eqb a b && startswith p' s'
  end.

(** [p in s] *)
Fixpoint contains (p s : str) : bool :=
  startswith p s
  || match s with
     | [] => false
     | _ :: s' => contains p s'
     end.

(** [s.split(sep)] for a non-empty [sep]: the pieces between the
    non-overlapping occurrences of [sep], scanning from the left.  [skip]
    counts the characters of an occurrence still to be passed over, [cur] is
    the piece being collected. *)
Fixpoint split_go (sep s : str) (skip : nat) (cur : str) : list str :=
  match s with
  | [] => [cur]
  | c :: s' =>
      match skip with
      | S n => split_go sep s' n cur
      | O =>
          if startswith sep s
          then cur :: split_go sep s' (length sep - 1) []
          else split_go sep s' 0 (cur ++ [c])
      end
  end.

(** [s.split(sep)] *)
Definition py_split (s sep : str) : list str := split_go sep s 0 [].

(* ================================================================= *)
(** ** Regular expressions: the fragment of [re] the row grammar uses *)

Module Re.

(** Character classes.  [\s] on a [str] pattern is Unicode white space:
    below 256 these are 9-13, 28-31, 32, 133 and 160.  [.] is every
    character but the newline (no DOTALL flag). *)
Inductive cclass : Type :=
| Space          (* \s *)
| NonSpace       (* \S *)
| Dot            (* .  *)
| Lit (c : ascii).

Definition is_space (c : ascii) : bool :=
  let n := nat_of_ascii c in
  ((9 <=? n) && (n <=? 13)) || ((28 <=? n) && (n <=? 32))
  || (n =? 133) || (n =? 160).

Definition accepts (cc : cclass) (c : ascii) : bool :=
  match cc with
  | Space => is_space c
  | NonSpace => negb (is_space c)
  | Dot => negb (Ascii.eqb c nl)
  | Lit a => Ascii.eqb c a
  end.

(** Quantifiers only occur on single character classes in the pattern. *)
Inductive regex : Type :=
| Chr (cc : cclass)
| Plus (cc : cclass)                 (* cc+ , greedy *)
| Star (cc : cclass)                 (* cc* , greedy *)
| Seq (r1 r2 : regex)
| Alt (r1 r2 : regex)                (* r1|r2, r1 tried first *)
| Group (n : nat) (r : regex).       (* capturing group number n *)

(** Group contents, by group number; [None]: did not take part. *)
Definition captures := list (nat * str).

(** The content of group [n]: the last capture made for it. *)
Fixpoint group (n : nat) (g : captures) : option str :=
  match g with
  | [] => None
  | (m, v) :: g' => if Nat.eqb n m then Some v else group n g'
  end.

Section Matcher.
Variable R : Type.

(** Greedy repetition with backtracking: take one more character when
    possible, and fall back to stopping here when the rest fails. *)
Fixpoint star (cc : cclass) (s : str) (k : str -> option R) : option R :=
  match s with
  | c :: s' =>
      if accepts cc c
      then match star cc s' k with
           | Some r => Some r
           | None => k s
           end
      else k s
  | [] => k []
  end.

Definition plus (cc : cclass) (s : str) (k : str -> option R) : option R :=
  match s with
  | c :: s' => if accepts cc c then star cc s' k else None
  | [] => None
  end.

(** The backtracking matcher, in continuation-passing style: [k] is the
    rest of the pattern; the first success in priority order wins. *)
Fixpoint run (r : regex) (s : str) (g : captures)
         (k : str -> captures -> option R) : option R :=
  match r with
  | Chr cc =>
      match s with
      | c :: s' => if accepts cc c then k s' g else None
      | [] => None
      end
  | Plus cc => plus cc s (fun s' => k s' g)
  | Star cc => star cc s (fun s' => k s' g)
  | Seq r1 r2 => run r1 s g (fun s' g' => run r2 s' g' k)
  | Alt r1 r2 =>
      match run r1 s g k with
      | Some x => Some x
      | None => run r2 s g k
      end
  | Group n r1 =>
      run r1 s g
          (fun s' g' => k s' ((n, firstn (length s - length s') s) :: g'))
  end.
End Matcher.

(** A match anchored at the start of [s]: the captures and what is left. *)
Definition match_at (r : regex) (s : str) : option (captures * str) :=
  run r s [] (fun s' g => Some (g, s')).

(** What [findall] reports for one match of a pattern with [n] groups
    ([n] > 1): the tuple of the groups, the empty string for a group that
    did not take part. *)
Definition groups_tuple (n : nat) (g : captures) : list str :=
  map (fun i => match group i g with Some v => v | None => [] end)
      (seq 1 n).

(** [re.findall]: leftmost matches, left to right, not overlapping.  After
    a match the scan resumes where the match ended; [skip] counts the
    characters of the last match still to be passed over. *)
Fixpoint findall_go (r : regex) (n : nat) (s : str) (skip : nat)
  : list (list str) :=
  match s with
  | [] =>
      match skip with
      | S _ => []
      | O => match match_at r [] with
             | Some (g, _) => [groups_tuple n g]
             | None => []
             end
      end
  | c :: s' =>
      match skip with
      | S m => findall_go r n s' m
      | O =>
          match match_at r s with
          | Some (g, rest) =>
              groups_tuple n g
                :: findall_go r n s' (length s - length rest - 1)
          | None => findall_go r n s' 0
          end
      end
  end.

Definition findall (r : regex) (n : nat) (s : str) : list (list str) :=
  findall_go r n s 0.

End Re.

Import Re.

(** The row grammar of [ios_cdp_filter], piece by piece as in the pattern
    string: group 1 is \S+, then \s+, group 2 is \S+ followed by one space
    and \S+, then \s+, group 3 is \S+, then \s+, group 4 is the
    alternation of groups 5 to 9 (five, four, three, two, one single
    characters \S separated by one space, in this order), then \s+, group
    10 is \S+, then \s+, and group 11 is the rest of the line (dot star). *)
Definition tok : regex := Chr NonSpace.
Definition sptok : regex := Seq (Chr (Lit sp)) tok.   (* one space, then \S *)

Definition caps5 : regex := Seq tok (Seq sptok (Seq sptok (Seq sptok sptok))).
Definition caps4 : regex := Seq tok (Seq sptok (Seq sptok sptok)).
Definition caps3 : regex := Seq tok (Seq sptok sptok).
Definition caps2 : regex := Seq tok sptok.
Definition caps1 : regex := tok.

Definition caps_group : regex :=
  Group 4 (Alt (Group 5 caps5)
          (Alt (Group 6 caps4)
          (Alt (Group 7 caps3)
          (Alt (Group 8 caps2)
               (Group 9 caps1))))).

Definition ios_regex : regex :=
  Seq (Group 1 (Plus NonSpace))
 (Seq (Plus Space)
 (Seq (Group 2 (Seq (Plus NonSpace) (Seq (Chr (Lit sp)) (Plus NonSpace))))
 (Seq (Plus Space)
 (Seq (Group 3 (Plus NonSpace))
 (Seq (Plus Space)
 (Seq caps_group
 (Seq (Plus Space)
 (Seq (Group 10 (Plus NonSpace))
 (Seq (Plus Space)
      (Group 11 (Star Dot))))))))))).

(** The number of groups of the pattern: the length of the tuples. *)
Definition ios_regex_groups : nat := 11.

(* ================================================================= *)
(** ** Python values and exceptions *)

(** Decoded JSON documents, the records the extractors build, and [None].
    A dict keeps its keys in insertion order; the keys are strings. *)
#[warnings="-register-all"]
Inductive pyval : Type :=
| PNone
| PBool (b : bool)
| PInt (z : Z)
| PStr (s : str)
| PList (l : list pyval)
| PDict (d : list (str * pyval)).

(** The exceptions the extractors can meet. *)
Inductive exn : Type :=
| KeyError (k : pyval)
| IndexError
| TypeError
| OtherError (name : str).     (* raised by an external collaborator *)

(** An expression returns a value or raises. *)
Inductive outcome (A : Type) : Type :=
| Ret (a : A)
| Raise (e : exn).
Arguments Ret {A} a.
Arguments Raise {A} e.

(** [d.get(k)] *)
Fixpoint dict_get (d : list (str * pyval)) (k : str) : option pyval :=
  match d with
  | [] => None
  | (k', v) :: d' => if str_eqb k k' then Some v else dict_get d' k
  end.

(** [d[k] = v]: an existing key keeps its place, a new key goes last. *)
Fixpoint dict_set (d : list (str * pyval)) (k : str) (v : pyval)
  : list (str * pyval) :=
  match d with
  | [] => [(k, v)]
  | (k', v') :: d' =>
      if str_eqb k k' then (k', v) :: d' else (k', v') :: dict_set d' k v
  end.

(** [v[k]] for a string key [k]. *)
Definition getitem (v : pyval) (k : str) : outcome pyval :=
  match v with
  | PDict d => match dict_get d k with
               | Some x => Ret x
               | None => Raise (KeyError (PStr k))
               end
  | _ => Raise TypeError
  end.

(** [v[k1][k2]...]: the subscripts are applied from the left, and the first
    one that fails raises. *)
Fixpoint getpath (v : pyval) (ks : list str) : outcome pyval :=
  match ks with
  | [] => Ret v
  | k :: ks' =>
      match getitem v k with
      | Ret x => getpath x ks'
      | Raise e => Raise e
      end
  end.

(** [v[i]] for a non-negative integer literal [i]. *)
Definition getindex (v : pyval) (i : nat) : outcome pyval :=
  match v with
  | PList l => match nth_error l i with
               | Some x => Ret x
               | None => Raise IndexError
               end
  | PStr s => match nth_error s i with
              | Some c => Ret (PStr [c])
              | None => Raise IndexError
              end
  | PDict _ => Raise (KeyError (PInt (Z.of_nat i)))  (* the keys are strings *)
  | _ => Raise TypeError
  end.

(** What [for x in v] runs over. *)
Definition py_iter (v : pyval) : outcome (list pyval) :=
  match v with
  | PList l => Ret l
  | PDict d => Ret (map (fun kv => PStr (fst kv)) d)
  | PStr s => Ret (map (fun c => PStr [c]) s)
  | _ => Raise TypeError
  end.

(** [t[i]] on a tuple of strings, as [findall] returns them. *)
Definition tuple_get (t : list str) (i : nat) : outcome pyval :=
  match nth_error t i with
  | Some s => Ret (PStr s)
  | None => Raise IndexError
  end.

(** [l[i]] on a list of strings, as [split] returns it. *)
Definition list_get (l : list str) (i : nat) : outcome str :=
  match nth_error l i with
  | Some s => Ret s
  | None => Raise IndexError
  end.

(* ================================================================= *)
(** ** Rendering: [str(int)], [repr(bytes)], [json.dumps] *)

(** [str(n)] for an integer: its decimal digits. *)
Definition digit (n : nat) : ascii := ascii_of_nat (48 + n).

Fixpoint dec_go (fuel n : nat) (acc : str) : str :=
  match fuel with
  | O => acc
  | S f =>
      let acc' := digit (n mod 10) :: acc in
      if n / 10 =? 0 then acc' else dec_go f (n / 10) acc'
  end.

Definition nat_to_str (n : nat) : str := dec_go (S n) n [].

Definition Z_to_str (z : Z) : str :=
  if (z <? 0)%Z then "-"%char :: nat_to_str (Z.to_nat (- z))
  else nat_to_str (Z.to_nat z).

(** A lower-case hexadecimal digit. *)
Definition hexdigit (n : nat) : ascii :=
  if n <? 10 then ascii_of_nat (48 + n) else ascii_of_nat (87 + n).

Definition quote1 : ascii := "'"%char.
Definition quote2 : ascii := "034"%char.
Definition bslash : ascii := "\"%char.

Definition mem_char (c : ascii) (s : str) : bool := existsb (Ascii.eqb c) s.

(** One byte of a [bytes] literal, [q] being the quote in use. *)
Definition repr_byte (q c : ascii) : str :=
  let n := nat_of_ascii c in
  if Ascii.eqb c q || Ascii.eqb c bslash then [bslash; c]
  else if n =? 9 then [bslash; "t"%char]
  else if n =? 10 then [bslash; "n"%char]
  else if n =? 13 then [bslash; "r"%char]
  else if (n <? 32) || (127 <=? n)
       then [bslash; "x"%char; hexdigit (n / 16); hexdigit (n mod 16)]
  else [c].

(** [repr(b)] of a [bytes] object, which is what [format] puts for it. *)
Definition bytes_repr (b : str) : str :=
  let q := if mem_char quote1 b && negb (mem_char quote2 b)
           then quote2 else quote1 in
  "b"%char :: q :: flat_map (repr_byte q) b ++ [q].

(** Bytes that [repr] shows as they are. *)
Definition plain_byte (c : ascii) : bool :=
  let n := nat_of_ascii c in
  (32 <=? n) && (n <? 127)
  && negb (Ascii.eqb c quote1) && negb (Ascii.eqb c bslash).

(** The value of a lower-case hexadecimal digit. *)
Definition unhex (c : ascii) : option nat :=
  let n := nat_of_ascii c in
  if (48 <=? n) && (n <=? 57) then Some (n - 48)
  else if (97 <=? n) && (n <=? 102) then Some (n - 87)
  else None.

(** Reading the inside of a bytes literal back, escape by escape. *)
Fixpoint unrepr_go (s : str) : option str :=
  match s with
  | [] => Some []
  | c :: s1 =>
      if Ascii.eqb c bslash then
        match s1 with
        | [] => None
        | d :: s2 =>
            if Ascii.eqb d "x"%char then
              match s2 with
              | h1 :: h2 :: s3 =>
                  match unhex h1, unhex h2, unrepr_go s3 with
                  | Some a, Some b, Some r =>
                      Some (ascii_of_nat (16 * a + b) :: r)
                  | _, _, _ => None
                  end
              | _ => None
              end
            else
              let e := if Ascii.eqb d "t"%char then "009"%char
                       else if Ascii.eqb d "n"%char then "010"%char
                       else if Ascii.eqb d "r"%char then "013"%char
                       else d in
              option_map (cons e) (unrepr_go s2)
        end
      else option_map (cons c) (unrepr_go s1)
  end.

(** The bytes a bytes literal stands for. *)
Definition bytes_unrepr (s : str) : option str :=
  match s with
  | _ :: _ :: inside => unrepr_go (removelast inside)
  | _ => None
  end.

(** One character of a JSON string, with [ensure_ascii]. *)
Definition json_char (c : ascii) : str :=
  let n := nat_of_ascii c in
  if Ascii.eqb c quote2 then [bslash; quote2]
  else if Ascii.eqb c bslash then [bslash; bslash]
  else if n =? 10 then [bslash; "n"%char]
  else if n =? 13 then [bslash; "r"%char]
  else if n =? 9 then [bslash; "t"%char]
  else if n =? 12 then [bslash; "f"%char]
  else if n =? 8 then [bslash; "b"%char]
  else if (n <? 32) || (127 <=? n)
       then [bslash; "u"%char; "0"%char; "0"%char;
             hexdigit (n / 16); hexdigit (n mod 16)]
  else [c].

(** A JSON string literal. *)
Definition json_string (s : str) : str :=
  quote2 :: flat_map json_char s ++ [quote2].

(** [sep.join(l)] *)
Fixpoint join (sep : str) (l : list str) : str :=
  match l with
  | [] => []
  | [x] => x
  | x :: l' => x ++ sep ++ join sep l'
  end.

(** [json.dumps(v)] with the default separators. *)
Fixpoint json_dumps (v : pyval) : str :=
  match v with
  | PNone => lit "null"
  | PBool true => lit "true"
  | PBool false => lit "false"
  | PInt z => Z_to_str z
  | PStr s => json_string s
  | PList l => "["%char :: join (lit ", ") (map json_dumps l) ++ ["]"%char]
  | PDict d =>
      "{"%char ::
        join (lit ", ")
          (map (fun kv => json_string (fst kv) ++ lit ": " ++ json_dumps (snd kv)) d)
        ++ ["}"%char]
  end.

(* ================================================================= *)
(** ** The adapters and the extractors *)

(** The object [requests.post] returns: the attributes the extractor
    reads, and the result of its [json()] method. *)
Record response : Type := {
  ok : bool;
  status_code : Z;
  reason : str;
  content : str;                 (* bytes *)
  json : outcome pyval
}.

(** The arguments of one [requests.post] call. *)
Record http_request : Type := {
  url : str;
  payload : pyval;
  headers : pyval;
  auth : str * str;
  verify : bool
}.

(** What went to standard output: a [print]ed line or a [pprint]ed value. *)
Inductive out_item : Type :=
| Line (s : str)
| Pretty (v : pyval).

Definition k_neighbor_interface : str := lit "neighbor_interface".
Definition k_local_interface : str := lit "local_interface".
Definition k_neighbor : str := lit "neighbor".

(** The normalized record. *)
Definition neighbor_record (ni li n : pyval) : pyval :=
  PDict [(k_neighbor_interface, ni); (k_local_interface, li); (k_neighbor, n)].

(** One row of the inventory: the columns [main] reads. *)
Record device : Type := { hostname : str; ip : str; os : str }.

Section Program.

(** The outside world and the collaborators acting on it. *)
Variable World : Type.
Variable Conn : Type.          (* a netmiko connection *)
Variable Node : Type.          (* a pyeapi node *)

Variable requests_post : http_request -> World -> outcome response * World.
Variable getpass : str -> World -> outcome str * World.
Variable input : str -> World -> outcome str * World.
Variable ConnectHandler :
  str -> str -> str -> str -> World -> outcome Conn * World.
Variable send_command : Conn -> str -> World -> outcome str * World.
Variable connect_to : str -> World -> outcome Node * World.
Variable enable : Node -> str -> World -> outcome pyval * World.
Variable read_inventory : str -> World -> outcome (list device) * World.
Variable date_today : World -> outcome str * World.

(** The program state: the world, and what the run has done to it that
    the properties speak of.  [posts] logs every [requests.post] call. *)
Record state : Type := {
  world : World;
  stdout : list out_item;
  posts : list http_request;
  files : list (str * str)
}.

(** Computations: from a state to a value or an exception, and the state
    reached.  An exception keeps the effects made before it. *)
Definition M (A : Type) : Type := state -> outcome A * state.

Definition ret {A} (a : A) : M A := fun st => (Ret a, st).

Definition bind {A B} (m : M A) (f : A -> M B) : M B :=
  fun st => match m st with
            | (Ret a, st') => f a st'
            | (Raise e, st') => (Raise e, st')
            end.

(** An expression without effect. *)
Definition lift {A} (o : outcome A) : M A := fun st => (o, st).

(** [try: m  except: h] with a bare [except], which catches everything. *)
Definition try_except {A} (m : M A) (h : M A) : M A :=
  fun st => match m st with
            | (Ret a, st') => (Ret a, st')
            | (Raise _, st') => h st'
            end.

(** The state after one more item went to standard output. *)
Definition say (st : state) (o : out_item) : state :=
  {| world := world st; stdout := stdout st ++ [o];
     posts := posts st; files := files st |}.

(** The state after one more [requests.post] call was made. *)
Definition posted (st : state) (r : http_request) : state :=
  {| world := world st; stdout := stdout st;
     posts := posts st ++ [r]; files := files st |}.

(** The state after one more file was written. *)
Definition filed (st : state) (name data : str) : state :=
  {| world := world st; stdout := stdout st; posts := posts st;
     files := files st ++ [(name, data)] |}.

(** The state once the collaborators left the world as [w]. *)
Definition moved (st : state) (w : World) : state :=
  {| world := w; stdout := stdout st; posts := posts st; files := files st |}.

(** A call to a collaborator. *)
Definition external {A} (f : World -> outcome A * World) : M A :=
  fun st => let (o, w) := f (world st) in (o, moved st w).

Definition print (s : str) : M unit := fun st => (Ret tt, say st (Line s)).

Definition pprint (v : pyval) : M unit := fun st => (Ret tt, say st (Pretty v)).

Definition log_post (r : http_request) : M unit :=
  fun st => (Ret tt, posted st r).

Definition write_file (name data : str) : M unit :=
  fun st => (Ret tt, filed st name data).

Notation "x <- m ;; k" := (bind m (fun x => k))
  (at level 61, m at next level, right associativity).
Notation "m ;;; k" := (bind m (fun _ => k))
  (at level 61, right associativity).

(** [for x in l: acc.append(body(x))] *)
Fixpoint for_append {A B} (l : list A) (body : A -> M B) (acc : list B)
  : M (list B) :=
  match l with
  | [] => ret acc
  | x :: l' => y <- body x ;; for_append l' body (acc ++ [y])
  end.

(* --------------------------------------------------------------- *)
(** *** [switches.py] *)

Record NxSwitch : Type := {
  nx_host : str; nx_user : str; nx_pw : str;
  nx_jsonrpc : str; nx_method : str; nx_ver : Z; nx_cont_type : pyval
}.

(** The object [NxSwitch(host, user, pw)] builds, the other parameters at
    their defaults. *)
Definition NxSwitch_obj (host user pw : str) : NxSwitch :=
  {| nx_host := host; nx_user := user; nx_pw := pw;
     nx_jsonrpc := lit "2.0"; nx_method := lit "cli"; nx_ver := 1%Z;
     nx_cont_type :=
       PDict [(lit "content-type", PStr (lit "application/json-rpc"))] |}.

Definition NxSwitch_init (host user : str) (pw : option str) : M NxSwitch :=
  pw' <- match pw with
         | None => external (getpass (lit "What is your password: "))
         | Some p => ret p
         end ;;
  ret (NxSwitch_obj host user pw').

Definition nx_cdp_request (self : NxSwitch) : http_request :=
  {| url := lit "https://" ++ nx_host self ++ lit ":8443/ins";
     payload :=
       PList [PDict [(lit "jsonrpc", PStr (nx_jsonrpc self));
                     (lit "method", PStr (nx_method self));
                     (lit "params",
                       PDict [(lit "cmd", PStr (lit "show cdp neighbor"));
                              (lit "version", PInt (nx_ver self))]);
                     (lit "id", PInt 1)]];
     headers := nx_cont_type self;
     auth := (nx_user self, nx_pw self);
     verify := false |}.

(** [NxSwitch.nx_cdp]: one HTTPS POST of the request, logged in [posts].
    (Silencing the TLS warnings has no effect the properties speak of.) *)
Definition nx_cdp (self : NxSwitch) : M response :=
  log_post (nx_cdp_request self) ;;;
  external (requests_post (nx_cdp_request self)).

Record IosSwitch : Type := { ios_host : str; ios_user : str; ios_pw : str }.

Definition IosSwitch_init (host user : str) (pw : option str) : M IosSwitch :=
  pw' <- match pw with
         | None => external (getpass (lit "What is your password: "))
         | Some p => ret p
         end ;;
  ret {| ios_host := host; ios_user := user; ios_pw := pw' |}.

(** [IosSwitch.ios_cdp] *)
Definition ios_cdp (self : IosSwitch) : M str :=
  connection <- external (ConnectHandler (lit "cisco_ios") (ios_host self)
                                         (ios_user self) (ios_pw self)) ;;
  _ <- external (send_command connection (lit "terminal length 0")) ;;
  external (send_command connection (lit "show cdp neighbor")).

Record EosSwitch : Type := { eos_host : str }.

Definition EosSwitch_init (host : str) : M EosSwitch :=
  ret {| eos_host := host |}.

Definition eos_connect (self : EosSwitch) : M Node :=
  external (connect_to (eos_host self)).

Definition eos_lldp_neighbors (self : EosSwitch) (switch_conn : Node)
  : M pyval :=
  external (enable switch_conn (lit "show lldp neighbors")).

(* --------------------------------------------------------------- *)
(** *** [neighbor_info.py] *)

(** The dict display of the three extractors; the values are evaluated
    in the order written. *)
Definition neighbor_dict (ni li n : outcome pyval) : M pyval :=
  a <- lift ni ;;
  b <- lift li ;;
  c <- lift n ;;
  ret (neighbor_record a b c).

(** The line of the [else] branch:
    ['The request failed! status_code: {}\nreason: {}\ncontent: {}'.format(...)]. *)
Definition nxos_failed_message (r : response) : str :=
  lit "The request failed! status_code: " ++ Z_to_str (status_code r)
    ++ [nl] ++ lit "reason: " ++ reason r
    ++ [nl] ++ lit "content: " ++ bytes_repr (content r).

(** The keys of [cdp_data['result']['body'][...][...]]. *)
Definition nxos_path : list str :=
  [lit "result"; lit "body"; lit "TABLE_cdp_neighbor_brief_info";
   lit "ROW_cdp_neighbor_brief_info"].

(** [nxos_cdp_filter]: [nx_cdp()] is called once for the [ok] test and a
    second time for [.json()], as the source does; no [try] around it. *)
Definition nxos_cdp_filter (device user : str) (pw : option str) : M pyval :=
  nxos_switch <- NxSwitch_init device user pw ;;
  cdp_request <- nx_cdp nxos_switch ;;
  if ok cdp_request then
    again <- nx_cdp nxos_switch ;;
    cdp_data <- lift (json again) ;;
    cdp_filtered <- lift (getpath cdp_data nxos_path) ;;
    entries <- lift (py_iter cdp_filtered) ;;
    all_neighbors <-
      for_append entries
        (fun neighbor =>
           neighbor_dict (getitem neighbor (lit "port_id"))
                         (getitem neighbor (lit "intf_id"))
                         (getitem neighbor (lit "device_id")))
        [] ;;
    ret (PList all_neighbors)
  else
    print (nxos_failed_message cdp_request) ;;;
    ret PNone.

(** The separator of [cdp_data.split('Port ID\n')]. *)
Definition port_id_marker : str := lit "Port ID" ++ [nl].

(** The [try] block of [ios_cdp_filter]. *)
Definition ios_cdp_body (device user : str) (pw : option str) : M pyval :=
  ios_switch <- IosSwitch_init device user pw ;;
  cdp_data <- ios_cdp ios_switch ;;
  rel_cdp_info <- lift (list_get (py_split cdp_data port_id_marker) 1) ;;
  let cdp_neighbors := findall ios_regex ios_regex_groups rel_cdp_info in
  all_neighbors <-
    for_append cdp_neighbors
      (fun neighbor =>
         neighbor_dict (tuple_get neighbor 10)
                       (tuple_get neighbor 1)
                       (tuple_get neighbor 0))
      [] ;;
  ret (PList all_neighbors).

(** [ios_cdp_filter]: the block under a bare [except]. *)
Definition ios_cdp_filter (device user : str) (pw : option str) : M pyval :=
  try_except
    (ios_cdp_body device user pw)
    (print (lit "Couldn't login into " ++ device) ;;;
     ret PNone).

(** The keys of [lldp_data['result']['lldpNeighbors']]. *)
Definition eos_path : list str := [lit "result"; lit "lldpNeighbors"].

(** The [try] block of [eos_lldp_filter]. *)
Definition eos_lldp_body (eos_switch : EosSwitch) : M pyval :=
  eos_switch_conn <- eos_connect eos_switch ;;
  res <- eos_lldp_neighbors eos_switch eos_switch_conn ;;
  lldp_data <- lift (getindex res 0) ;;
  v2 <- lift (getpath lldp_data eos_path) ;;
  entries <- lift (py_iter v2) ;;
  all_neighbors <-
    for_append entries
      (fun neighbor =>
         neighbor_dict (getitem neighbor (lit "neighborPort"))
                       (getitem neighbor (lit "port"))
                       (getitem neighbor (lit "neighborDevice")))
      [] ;;
  ret (PList all_neighbors).

(** [eos_lldp_filter]: the object is built outside the [try]. *)
Definition eos_lldp_filter (device : str) : M pyval :=
  eos_switch <- EosSwitch_init device ;;
  try_except
    (eos_lldp_body eos_switch)
    (print (lit "Couldn't login into: " ++ device) ;;;
     ret PNone).

(** The request [nxos_cdp_filter] sends for a device. *)
Definition nxos_request (device user pw : str) : http_request :=
  nx_cdp_request (NxSwitch_obj device user pw).

(** The first two lines of the [try] block of [ios_cdp_filter]: the CLI
    text of the device. *)
Definition ios_fetch (device user : str) (pw : option str) : M str :=
  ios_switch <- IosSwitch_init device user pw ;;
  ios_cdp ios_switch.

(** The first two lines of the [try] block of [eos_lldp_filter]: the eAPI
    result for the device. *)
Definition eos_fetch (device : str) : M pyval :=
  eos_switch_conn <- eos_connect {| eos_host := device |} ;;
  eos_lldp_neighbors {| eos_host := device |} eos_switch_conn.

(** The body of the [for] loop of [main]: the extractor runs first, then
    its value is stored under the hostname; a row with another [os] tag
    leaves the mapping as it is. *)
Definition main_step (user pw : str) (inv_dict : list (str * pyval))
           (d : device) : M (list (str * pyval)) :=
  if str_eqb (os d) (lit "nxos") then
    r <- nxos_cdp_filter (ip d) user (Some pw) ;;
    ret (dict_set inv_dict (hostname d) r)
  else if str_eqb (os d) (lit "ios") then
    r <- ios_cdp_filter (ip d) user (Some pw) ;;
    ret (dict_set inv_dict (hostname d) r)
  else if str_eqb (os d) (lit "eos") then
    r <- eos_lldp_filter (hostname d) ;;
    ret (dict_set inv_dict (hostname d) r)
  else ret inv_dict.

(** [for device in inventory: ...] *)
Fixpoint main_loop (user pw : str) (inventory : list device)
         (inv_dict : list (str * pyval)) : M (list (str * pyval)) :=
  match inventory with
  | [] => ret inv_dict
  | d :: rest =>
      inv' <- main_step user pw inv_dict d ;;
      main_loop user pw rest inv'
  end.

(** [main]: the prompts, the inventory, the loop, then the pretty print
    and the JSON file named after the date. *)
Definition main : M pyval :=
  user <- external (input (lit "What is your username: ")) ;;
  pw <- external (getpass (lit "What is your password: ")) ;;
  inventory <- external (read_inventory (lit "inventory.csv")) ;;
  inv_dict <- main_loop user pw inventory [] ;;
  pprint (PDict inv_dict) ;;;
  datestamp <- external date_today ;;
  write_file (lit "neighbors_" ++ datestamp ++ lit ".json")
             (json_dumps (PDict inv_dict)) ;;;
  ret PNone.

End Program.

Arguments IosSwitch_init {World} getpass host user pw _.
Arguments ios_cdp {World Conn} ConnectHandler send_command self _.
Arguments eos_connect {World Node} connect_to self _.
Arguments eos_lldp_neighbors {World Node} enable self switch_conn _.
Arguments ios_fetch {World Conn} getpass ConnectHandler send_command
  device user pw _.
Arguments eos_fetch {World Node} connect_to enable device _.
Arguments nxos_cdp_filter {World} requests_post getpass device user pw _.
Arguments ios_cdp_body {World Conn} getpass ConnectHandler send_command
  device user pw _.
Arguments ios_cdp_filter {World Conn} getpass ConnectHandler send_command
  device user pw _.
Arguments eos_lldp_body {World Node} connect_to enable eos_switch _.
Arguments eos_lldp_filter {World Node} connect_to enable device _.
Arguments main_step {World Conn Node} requests_post getpass ConnectHandler
  send_command connect_to enable user pw inv_dict d _.
Arguments main_loop {World Conn Node} requests_post getpass ConnectHandler
  send_command connect_to enable user pw inventory inv_dict _.
Arguments main {World Conn Node} requests_post getpass input ConnectHandler
  send_command connect_to enable read_inventory date_today _.

(* ================================================================= *)
(** ** A scripted world, to run the program on concrete devices *)

Module Script.

(** What each device will answer: the successive HTTP responses of the
    NX-API endpoint, the text of the CLI session, the eAPI result. *)
Record script : Type := {
  nx_answers : list (outcome response);
  ios_answer : outcome str;
  eos_answer : outcome pyval;
  inventory_rows : list device
}.

Definition requests_post (_ : http_request) (w : script)
  : outcome response * script :=
  match nx_answers w with
  | [] => (Raise (OtherError (lit "ConnectionError")), w)
  | r :: more =>
      (r, {| nx_answers := more; ios_answer := ios_answer w;
             eos_answer := eos_answer w;
             inventory_rows := inventory_rows w |})
  end.

Definition getpass (_ : str) (w : script) : outcome str * script :=
  (Ret (lit "secret"), w).

Definition input (_ : str) (w : script) : outcome str * script :=
  (Ret (lit "admin"), w).

Definition ConnectHandler (_ _ _ _ : str) (w : script)
  : outcome unit * script := (Ret tt, w).

Definition send_command (_ : unit) (cmd : str) (w : script)
  : outcome str * script :=
  if str_eqb cmd (lit "show cdp neighbor") then (ios_answer w, w)
  else (Ret [], w).

Definition connect_to (_ : str) (w : script) : outcome unit * script :=
  (Ret tt, w).

Definition enable (_ : unit) (_ : str) (w : script)
  : outcome pyval * script := (eos_answer w, w).

Definition read_inventory (_ : str) (w : script)
  : outcome (list device) * script := (Ret (inventory_rows w), w).

Definition date_today (w : script) : outcome str * script :=
  (Ret (lit "2017-03-01"), w).

(** The state before the run. *)
Definition start (w : script) : state script :=
  {| world := w; stdout := []; posts := []; files := [] |}.

Definition nxos := nxos_cdp_filter requests_post getpass.
Definition ios := ios_cdp_filter getpass ConnectHandler send_command.
Definition eos := eos_lldp_filter connect_to enable.
Definition loop :=
  main_loop requests_post getpass ConnectHandler send_command
            connect_to enable.
Definition run_main :=
  main requests_post getpass input ConnectHandler send_command
       connect_to enable read_inventory date_today.

End Script.

(* ================================================================= *)
(** ** The shape of the text: tokens, gaps, rows and tables *)

(** The text after a repetition of [cc] ends the repetition. *)
Definition stops (cc : cclass) (s : str) : bool :=
  match s with
  | [] => true
  | c :: _ => negb (accepts cc c)
  end.

(** Could a match of [r] begin with the character [c]?  (An upper bound:
    true when [r] may match the empty string.) *)
Fixpoint head_ok (r : regex) (c : ascii) : bool :=
  match r with
  | Chr cc | Plus cc => accepts cc c
  | Star _ => true
  | Seq r1 _ => head_ok r1 c
  | Alt r1 r2 => head_ok r1 c || head_ok r2 c
  | Group _ r1 => head_ok r1 c
  end.

(** A token: a non-empty run of characters that are not white space. *)
Definition token (t : str) : bool :=
  match t with
  | [] => false
  | _ => forallb (accepts NonSpace) t
  end.

(** A gap: a non-empty run of white space (line breaks included). *)
Definition gap (w : str) : bool :=
  match w with
  | [] => false
  | _ => forallb (accepts Space) w
  end.

(** The capability field: one-letter codes, one space between them. *)
Fixpoint caps_text (cs : list ascii) : str :=
  match cs with
  | [] => []
  | [c] => [c]
  | c :: cs' => c :: sp :: caps_text cs'
  end.

(** The character classes of a pattern that is a fixed sequence of single
    characters, as each alternative of the capability group is. *)
Fixpoint chars_of (r : regex) : option (list cclass) :=
  match r with
  | Chr cc => Some [cc]
  | Seq r1 r2 =>
      match chars_of r1, chars_of r2 with
      | Some a, Some b => Some (a ++ b)
      | _, _ => None
      end
  | _ => None
  end.

(** Matching such a sequence: what is left of [s], if its head fits. *)
Fixpoint match_chars (ccs : list cclass) (s : str) : option str :=
  match ccs with
  | [] => Some s
  | cc :: ccs' =>
      match s with
      | c :: s' => if accepts cc c then match_chars ccs' s' else None
      | [] => None
      end
  end.

(** The character classes of the alternative of [j] codes: one code, then
    [j - 1] times a space and a code. *)
Fixpoint more_classes (j : nat) : list cclass :=
  match j with
  | O => []
  | S j' => Lit sp :: NonSpace :: more_classes j'
  end.

Definition caps_classes (j : nat) : list cclass :=
  NonSpace :: more_classes (j - 1).

(** The codes after the first, each after its space. *)
Fixpoint more_text (cs : list ascii) : str :=
  match cs with
  | [] => []
  | c :: cs' => sp :: c :: more_text cs'
  end.

(** Which alternative of the capability group a field of [n] codes takes:
    five codes take group 5, ..., one code takes group 9. *)
Definition caps_alt (n : nat) : nat := 10 - n.

(** The rest of a line: the remote port id.  It starts with a visible
    character and runs to the end of the line. *)
Definition line_rest (p : str) : bool :=
  match p with
  | [] => false
  | c :: _ => accepts NonSpace c && forallb (accepts Dot) p
  end.

(** One row of the neighbor table, column by column, with the white space
    between the columns. *)
Record row : Type := {
  r_dev : str;                (* neighbor device id *)
  gap1 : str;
  r_if1 : str;                (* local interface, two tokens *)
  r_if2 : str;
  gap2 : str;
  r_hold : str;               (* holdtime *)
  gap3 : str;
  r_caps : list ascii;        (* capability codes, one letter each *)
  gap4 : str;
  r_plat : str;               (* platform *)
  gap5 : str;
  r_port : str                (* remote port id *)
}.

(** The text of a row. *)
Definition render (r : row) : str :=
  r_dev r ++ gap1 r ++ r_if1 r ++ [sp] ++ r_if2 r ++ gap2 r ++ r_hold r
    ++ gap3 r ++ caps_text (r_caps r) ++ gap4 r ++ r_plat r ++ gap5 r
    ++ r_port r.

(** A well-formed row: every column is there, the capability field has
    one to five one-letter codes, the gaps are white space. *)
Definition row_ok (r : row) : bool :=
  token (r_dev r) && gap (gap1 r) && token (r_if1 r) && token (r_if2 r)
  && gap (gap2 r) && token (r_hold r) && gap (gap3 r)
  && ((1 <=? length (r_caps r)) && (length (r_caps r) <=? 5))
  && forallb (accepts NonSpace) (r_caps r)
  && gap (gap4 r) && token (r_plat r) && gap (gap5 r)
  && line_rest (r_port r).

(** The platform cannot be taken for one more capability code: the field
    is full (five codes), or the platform has at least two characters, or
    the white space after the codes is not exactly one space. *)
Definition platform_clear (r : row) : bool :=
  (length (r_caps r) =? 5) || (2 <=? length (r_plat r))
  || negb (str_eqb (gap4 r) [sp]).

(** The groups of a match of the row, the last one set first. *)
Definition row_captures (r : row) : captures :=
  [ (11, r_port r); (10, r_plat r);
    (4, caps_text (r_caps r));
    (caps_alt (length (r_caps r)), caps_text (r_caps r));
    (3, r_hold r); (2, r_if1 r ++ sp :: r_if2 r); (1, r_dev r) ].

(** The tuple [findall] gives for the row. *)
Definition row_tuple (r : row) : list str :=
  let n := length (r_caps r) in
  let alt j := if n =? j then caps_text (r_caps r) else [] in
  [ r_dev r; r_if1 r ++ sp :: r_if2 r; r_hold r; caps_text (r_caps r);
    alt 5; alt 4; alt 3; alt 2; alt 1; r_plat r; r_port r ].

(** [matches r p g g']: the pattern [r] can match exactly the text [p],
    turning the captures [g] into [g']. *)
Inductive matches : regex -> str -> captures -> captures -> Prop :=
| M_chr cc c g :
    accepts cc c = true -> matches (Chr cc) [c] g g
| M_plus cc p g :
    p <> [] -> forallb (accepts cc) p = true -> matches (Plus cc) p g g
| M_star cc p g :
    forallb (accepts cc) p = true -> matches (Star cc) p g g
| M_seq r1 r2 p1 p2 g g' g'' :
    matches r1 p1 g g' -> matches r2 p2 g' g'' ->
    matches (Seq r1 r2) (p1 ++ p2) g g''
| M_alt_l r1 r2 p g g' :
    matches r1 p g g' -> matches (Alt r1 r2) p g g'
| M_alt_r r1 r2 p g g' :
    matches r2 p g g' -> matches (Alt r1 r2) p g g'
| M_group n r p g g' :
    matches r p g g' -> matches (Group n r) p g ((n, p) :: g').

(** Rows one per line; the last line may lack its newline. *)
Definition table (rows : list row) : str := join [nl] (map render rows).

(** Rows, each ended by a newline. *)
Definition lines (rows : list row) : str :=
  concat (map (fun r => render r ++ [nl]) rows).

(** Rows that are well formed, with a platform that cannot be taken for a
    capability code. *)
Definition rows_ok (rows : list row) : bool :=
  forallb (fun r => row_ok r && platform_clear r) rows.

(** The pattern after the device id and the white space that follows it. *)
Definition row_after_dev : regex :=
  Seq (Group 2 (Seq (Plus NonSpace) (Seq (Chr (Lit sp)) (Plus NonSpace))))
 (Seq (Plus Space)
 (Seq (Group 3 (Plus NonSpace))
 (Seq (Plus Space)
 (Seq caps_group
 (Seq (Plus Space)
 (Seq (Group 10 (Plus NonSpace))
 (Seq (Plus Space)
      (Group 11 (Star Dot))))))))).

(** *** What the extractors compute, field by field *)

(** The record of one entry of a structured response: the values under
    the three keys, unchanged. *)
Definition maps_fields (kp ki kd : str) (e rec : pyval) : Prop :=
  exists a b c,
    getitem e kp = Ret a /\ getitem e ki = Ret b /\ getitem e kd = Ret c
    /\ rec = neighbor_record a b c.

(** The record the structured extractors are to give for one entry,
    written out key by key: the entry's value for [kp] under
    [neighbor_interface], for [ki] under [local_interface], for [kd] under
    [neighbor], in this order and with no other key. *)
Definition record_of_entry (kp ki kd : str) (e rec : pyval) : Prop :=
  exists a b c,
    getitem e kp = Ret a /\ getitem e ki = Ret b /\ getitem e kd = Ret c
    /\ rec = PDict [(lit "neighbor_interface", a);
                    (lit "local_interface", b);
                    (lit "neighbor", c)].

(** The record of one tuple of [findall]. *)
Definition tuple_record (t : list str) : pyval :=
  neighbor_record (PStr (nth 10 t [])) (PStr (nth 1 t [])) (PStr (nth 0 t [])).

(** [x] is a piece of [s]. *)
Definition piece_of (x s : str) : Prop := exists pre post, s = pre ++ x ++ post.

(* ================================================================= *)
(** ** Sample rows and devices *)

(** One code, one space, a one-letter platform. *)
Definition swallowed_row : row :=
  {| r_dev := lit "sw2"; gap1 := lit "  ";
     r_if1 := lit "Gig"; r_if2 := lit "0/3"; gap2 := lit "  ";
     r_hold := lit "130"; gap3 := lit "  ";
     r_caps := ["R"%char]; gap4 := lit " ";
     r_plat := lit "X"; gap5 := lit " ";
     r_port := lit "Gig 0/2" |}.

(** Rows with one, three and five codes; the second has its device id on a
    line of its own. *)
Definition sample_rows : list row :=
  [ {| r_dev := lit "lab-7206"; gap1 := lit "   ";
       r_if1 := lit "Eth"; r_if2 := lit "0"; gap2 := lit "       ";
       r_hold := lit "157"; gap3 := lit "      ";
       r_caps := ["R"%char]; gap4 := lit "    ";
       r_plat := lit "7206VXR"; gap5 := lit "  ";
       r_port := lit "Fas 0/0/0" |};
    {| r_dev := lit "sw-core.example.com"; gap1 := nl :: lit "              ";
       r_if1 := lit "Gig"; r_if2 := lit "0/1"; gap2 := lit "   ";
       r_hold := lit "120"; gap3 := lit "    ";
       r_caps := ["R"; "S"; "I"]%char; gap4 := lit " ";
       r_plat := lit "WS-C3750"; gap5 := lit " ";
       r_port := lit "Gig 0/2" |};
    {| r_dev := lit "edge1"; gap1 := lit " ";
       r_if1 := lit "Ten"; r_if2 := lit "1/1"; gap2 := lit " ";
       r_hold := lit "9"; gap3 := lit " ";
       r_caps := ["R"; "S"; "T"; "I"; "r"]%char; gap4 := lit " ";
       r_plat := lit "X"; gap5 := lit " ";
       r_port := lit "Eth 1/1" |} ].

Module Samples.
Import Script.

Definition admin : str := lit "admin".
Definition secret : str := lit "secret".

Definition entry_a (p i d : string) : pyval :=
  PDict [(lit "port_id", PStr (lit p)); (lit "intf_id", PStr (lit i));
         (lit "device_id", PStr (lit d))].

Definition entry_b (p i d : string) : pyval :=
  PDict [(lit "neighborPort", PStr (lit p)); (lit "port", PStr (lit i));
         (lit "neighborDevice", PStr (lit d))].

Definition nxos_doc (rows : pyval) : pyval :=
  PDict [(lit "result",
          PDict [(lit "body",
                  PDict [(lit "TABLE_cdp_neighbor_brief_info",
                          PDict [(lit "ROW_cdp_neighbor_brief_info", rows)])])])].

(** A document without the table, as for a switch that reports a count
    of zero and no table. *)
Definition nxos_doc_no_table : pyval :=
  PDict [(lit "result", PDict [(lit "body", PDict [(lit "neigh_count", PInt 0)])])].

Definition eos_doc (rows : list pyval) : pyval :=
  PList [PDict [(lit "result", PDict [(lit "lldpNeighbors", PList rows)])]].

Definition http_ok (doc : pyval) : response :=
  {| ok := true; status_code := 200; reason := lit "OK";
     content := lit "{}"; json := Ret doc |}.

Definition http_unauthorized : response :=
  {| ok := false; status_code := 401; reason := lit "Unauthorized";
     content := lit "Authentication failure";
     json := Raise (OtherError (lit "JSONDecodeError")) |}.

Definition cdp_header : str :=
  lit "Capability Codes: R - Router, S - Switch, I - IGMP" ++ [nl; nl]
  ++ lit "Device ID        Local Intrfce     Holdtme    Capability  Platform  Port ID"
  ++ [nl].

Definition unreachable : exn := OtherError (lit "timeout").

Definition n1 : device :=
  {| hostname := lit "n1"; ip := lit "10.0.0.1"; os := lit "nxos" |}.
Definition i1 : device :=
  {| hostname := lit "i1"; ip := lit "10.0.0.2"; os := lit "ios" |}.
Definition e1 : device :=
  {| hostname := lit "e1"; ip := lit "10.0.0.3"; os := lit "eos" |}.

(** An IOS device that answers with an error banner, then an Arista with
    one neighbor. *)
Definition w_no_marker : script :=
  {| nx_answers := [];
     ios_answer := Ret (lit "% Invalid input detected at '^' marker." ++ [nl]);
     eos_answer := Ret (eos_doc [entry_b "Ethernet1" "Ethernet2" "leaf1"]);
     inventory_rows := [i1; e1] |}.

(** A Nexus whose responses carry the flag but no table, then an IOS
    device with one neighbor. *)
Definition w_no_table : script :=
  {| nx_answers := [Ret (http_ok nxos_doc_no_table);
                    Ret (http_ok nxos_doc_no_table)];
     ios_answer :=
       Ret (cdp_header
              ++ lit "sw2              Gig 0/3           130              R     N9K       Eth 1/1");
     eos_answer := Raise unreachable;
     inventory_rows := [n1; i1] |}.


(** Two neighbors on the structured devices. *)
Definition w_two : script :=
  {| nx_answers :=
       [Ret (http_ok (nxos_doc (PList [entry_a "Ethernet1/1" "mgmt0" "core1";
                                       entry_a "Ethernet1/2" "Ethernet1/49" "core2"])));
        Ret (http_ok (nxos_doc (PList [entry_a "Ethernet1/1" "mgmt0" "core1";
                                       entry_a "Ethernet1/2" "Ethernet1/49" "core2"])))];
     ios_answer := Raise unreachable;
     eos_answer := Ret (eos_doc [entry_b "Ethernet1" "Ethernet2" "leaf1";
                                 entry_b "Ethernet3" "Ethernet4" "leaf2"]);
     inventory_rows := [n1; e1] |}.

(** A Nexus that refuses the credentials. *)
Definition w_refused : script :=
  {| nx_answers := [Ret http_unauthorized];
     ios_answer := Raise unreachable;
     eos_answer := Raise unreachable;
     inventory_rows := [n1] |}.

(** An IOS table with a row whose port id column is blank. *)
Definition w_blank_port : script :=
  {| nx_answers := [];
     ios_answer :=
       Ret (cdp_header
              ++ lit "sw2              Gig 0/3           130              R     N9K"
              ++ [nl]);
     eos_answer := Raise unreachable;
     inventory_rows := [i1] |}.

(** An IOS table of two rows, the second with its device id on a line of
    its own. *)
Definition w_table : script :=
  {| nx_answers := [];
     ios_answer :=
       Ret (cdp_header
              ++ lit "lab-7206         Eth 0              157          R        7206VXR   Fas 0/0/0"
              ++ [nl]
              ++ lit "sw-core.example.com" ++ [nl]
              ++ lit "                 Gig 0/1            120        R S I      WS-C3750  Gig 0/2");
     eos_answer := Raise unreachable;
     inventory_rows := [i1] |}.




End Samples.

(* ================================================================= *)
(** ** Notions for the properties beyond the claims *)

(** No occurrence of [sep] starts within [pre] in the text [pre ++ rest]. *)
Fixpoint starts_none (sep pre rest : str) : bool :=
  match pre with
  | [] => true
  | _ :: pre' =>
      negb (startswith sep (pre ++ rest)) && starts_none sep pre' rest
  end.

(** The first exception the dict display raises on the entry [e], if any:
    the keys are read in the order written. *)
Definition entry_error (kp ki kd : str) (e : pyval) : option exn :=
  match getitem e kp with
  | Raise x => Some x
  | Ret _ =>
      match getitem e ki with
      | Raise x => Some x
      | Ret _ =>
          match getitem e kd with
          | Raise x => Some x
          | Ret _ => None
          end
      end
  end.

(** The [os] tags [main] knows. *)
Definition recognized (d : device) : bool :=
  str_eqb (os d) (lit "nxos") || str_eqb (os d) (lit "ios")
  || str_eqb (os d) (lit "eos").

(** The keys of a dict after [d[h] = ...]. *)
Definition add_key (ks : list str) (h : str) : list str :=
  if existsb (str_eqb h) ks then ks else ks ++ [h].

(** The record the Text-Tabular extractor makes of a row. *)
Definition row_record (r : row) : pyval :=
  neighbor_record (PStr (r_port r)) (PStr (r_if1 r ++ sp :: r_if2 r))
                  (PStr (r_dev r)).

(** Two states with the same output, posts and files. *)
Definition same_log {World : Type} (st st' : state World) : Prop :=
  stdout st' = stdout st /\ posts st' = posts st /\ files st' = files st.

(** A row as the device prints it when the port id column is blank. *)
Definition render_blank (r : row) : str :=
  r_dev r ++ gap1 r ++ r_if1 r ++ [sp] ++ r_if2 r ++ gap2 r ++ r_hold r
    ++ gap3 r ++ caps_text (r_caps r) ++ gap4 r ++ r_plat r.

(** The row [r] with [w] as the white space after the platform and [p] as
    the port id. *)
Definition with_port (r : row) (w p : str) : row :=
  {| r_dev := r_dev r; gap1 := gap1 r; r_if1 := r_if1 r; r_if2 := r_if2 r;
     gap2 := gap2 r; r_hold := r_hold r; gap3 := gap3 r; r_caps := r_caps r;
     gap4 := gap4 r; r_plat := r_plat r; gap5 := w; r_port := p |}.



Module MoreSamples.
Import Script Samples.

(** The CLI output before the header marker. *)
Definition cdp_preamble : str :=
  lit "Capability Codes: R - Router, S - Switch, I - IGMP" ++ [nl; nl]
  ++ lit "Device ID        Local Intrfce     Holdtme    Capability  Platform  ".

Definition j1 : device :=
  {| hostname := lit "j1"; ip := lit "10.0.0.5"; os := lit "junos" |}.

(** A second inventory row for the hostname of [i1]. *)
Definition i1_again : device :=
  {| hostname := lit "i1"; ip := lit "10.0.0.6"; os := lit "eos" |}.

Definition http_garbled : response :=
  {| ok := true; status_code := 200; reason := lit "OK";
     content := lit "<html>"; json := Raise (OtherError (lit "JSONDecodeError")) |}.

(** An entry of the NX-API table without [intf_id]. *)
Definition entry_no_intf : pyval :=
  PDict [(lit "port_id", PStr (lit "Ethernet1/2"));
         (lit "device_id", PStr (lit "core2"))].

(** An entry of the eAPI table without [neighborDevice]. *)
Definition entry_no_device : pyval :=
  PDict [(lit "neighborPort", PStr (lit "Ethernet3"));
         (lit "port", PStr (lit "Ethernet4"))].

(** An Arista, then a Nexus that does not answer, then an IOS device. *)
Definition w_down : script :=
  {| nx_answers := [];
     ios_answer := Ret cdp_header;
     eos_answer := Ret (eos_doc []);
     inventory_rows := [e1; n1; i1] |}.

(** A Nexus that answers once and then no more. *)
Definition w_once : script :=
  {| nx_answers := [Ret (http_ok (nxos_doc (PList [])))];
     ios_answer := Raise unreachable;
     eos_answer := Raise unreachable;
     inventory_rows := [n1] |}.

(** A Nexus whose second answer is no JSON. *)
Definition w_garbled : script :=
  {| nx_answers := [Ret (http_ok (nxos_doc (PList []))); Ret http_garbled];
     ios_answer := Raise unreachable;
     eos_answer := Raise unreachable;
     inventory_rows := [n1] |}.

(** Tables whose second entry lacks a key. *)
Definition w_incomplete : script :=
  {| nx_answers :=
       [Ret (http_ok (nxos_doc (PList [entry_a "Ethernet1/1" "mgmt0" "core1";
                                       entry_no_intf])));
        Ret (http_ok (nxos_doc (PList [entry_a "Ethernet1/1" "mgmt0" "core1";
                                       entry_no_intf])))];
     ios_answer := Raise unreachable;
     eos_answer := Ret (eos_doc [entry_b "Ethernet1" "Ethernet2" "leaf1";
                                 entry_no_device]);
     inventory_rows := [n1; e1] |}.

(** Devices with one neighbor that give the row itself where the list of
    rows is expected. *)
Definition w_single : script :=
  {| nx_answers :=
       [Ret (http_ok (nxos_doc (entry_a "Ethernet1/1" "mgmt0" "core1")));
        Ret (http_ok (nxos_doc (entry_a "Ethernet1/1" "mgmt0" "core1")))];
     ios_answer := Raise unreachable;
     eos_answer :=
       Ret (PList [PDict [(lit "result",
                           PDict [(lit "lldpNeighbors",
                                   entry_b "Ethernet1" "Ethernet2" "leaf1")])]]);
     inventory_rows := [n1; e1] |}.

(** An IOS device that prints the sample rows; the inventory has a row of
    an unknown kind and two rows for one hostname. *)
Definition w_rows : script :=
  {| nx_answers := [];
     ios_answer :=
       Ret (cdp_preamble ++ port_id_marker ++ table sample_rows ++ [nl]);
     eos_answer := Ret (eos_doc []);
     inventory_rows := [i1; j1; e1; i1_again] |}.

End MoreSamples.

(* ================================================================= *)
(** * Properties *)

(** ** The matcher on text of a known shape *)

(** *** Greedy repetitions *)

Lemma firstn_consumed (p rest : str) :
  firstn (length (p ++ rest) - length rest) (p ++ rest) = p.
Proof.
  rewrite length_app, Nat.add_sub.
  rewrite firstn_app, Nat.sub_diag, firstn_all. simpl. apply app_nil_r.
Qed.

Section Shape.
Variable R : Type.

Lemma star_exact cc p rest (k : str -> option R) :
  forallb (accepts cc) p = true ->
  stops cc rest = true ->
  (forall c s, accepts cc c = true -> k (c :: s) = None) ->
  star cc (p ++ rest) k = k rest.
Proof.
  intros Hp Hrest Hk. induction p as [|c p IH]; simpl in Hp |- *.
  - destruct rest as [|c s]; [reflexivity|]. simpl in *.
    destruct (accepts cc c); [discriminate | reflexivity].
  - apply andb_prop in Hp as [Hc Hp]. rewrite Hc, (IH Hp).
    destruct (k rest) eqn:E; [reflexivity|]. now rewrite Hk.
Qed.

Lemma star_take cc p rest (k : str -> option R) x :
  forallb (accepts cc) p = true ->
  stops cc rest = true ->
  k rest = Some x ->
  star cc (p ++ rest) k = Some x.
Proof.
  intros Hp Hrest Hk. induction p as [|c p IH]; simpl in Hp |- *.
  - destruct rest as [|c s]; [assumption|]. simpl in *.
    destruct (accepts cc c); [discriminate | assumption].
  - apply andb_prop in Hp as [Hc Hp]. now rewrite Hc, (IH Hp).
Qed.

Lemma plus_exact cc p rest (k : str -> option R) :
  p <> [] ->
  forallb (accepts cc) p = true ->
  stops cc rest = true ->
  (forall c s, accepts cc c = true -> k (c :: s) = None) ->
  plus cc (p ++ rest) k = k rest.
Proof.
  intros Hne Hp Hrest Hk. destruct p as [|c p]; [congruence|].
  simpl in *. apply andb_prop in Hp as [Hc Hp]. rewrite Hc.
  now apply star_exact.
Qed.

Lemma plus_take cc p rest (k : str -> option R) x :
  p <> [] ->
  forallb (accepts cc) p = true ->
  stops cc rest = true ->
  k rest = Some x ->
  plus cc (p ++ rest) k = Some x.
Proof.
  intros Hne Hp Hrest Hk. destruct p as [|c p]; [congruence|].
  simpl in *. apply andb_prop in Hp as [Hc Hp]. rewrite Hc.
  now apply star_take.
Qed.

(** A pattern that cannot begin with [c] fails on text beginning with it. *)
Lemma run_head r c s g (k : str -> captures -> option R) :
  head_ok r c = false -> run r (c :: s) g k = None.
Proof.
  revert g k. induction r as [cc|cc|cc|r1 IH1 r2 IH2|r1 IH1 r2 IH2|n r1 IH1];
    intros g k H; simpl in *.
  - now rewrite H.
  - now rewrite H.
  - discriminate.
  - now apply IH1.
  - apply orb_false_elim in H as [H1 H2]. now rewrite IH1, IH2.
  - now apply IH1.
Qed.

(** [cc+] followed by a pattern that cannot begin with a [cc] character
    takes the whole run of [cc] characters, and nothing else is tried. *)
Lemma run_seq_plus cc r p rest g (k : str -> captures -> option R) :
  p <> [] ->
  forallb (accepts cc) p = true ->
  stops cc rest = true ->
  (forall c, accepts cc c = true -> head_ok r c = false) ->
  run (Seq (Plus cc) r) (p ++ rest) g k = run r rest g k.
Proof.
  intros Hne Hp Hrest Hr. simpl.
  rewrite plus_exact; auto. intros c s Hc. apply run_head. auto.
Qed.

Lemma run_seq_group_plus n cc r p rest g (k : str -> captures -> option R) :
  p <> [] ->
  forallb (accepts cc) p = true ->
  stops cc rest = true ->
  (forall c, accepts cc c = true -> head_ok r c = false) ->
  run (Seq (Group n (Plus cc)) r) (p ++ rest) g k
  = run r rest ((n, p) :: g) k.
Proof.
  intros Hne Hp Hrest Hr. simpl.
  rewrite plus_exact; auto.
  - now rewrite firstn_consumed.
  - intros c s Hc. apply run_head. auto.
Qed.
End Shape.

(** *** The capability group *)

Lemma lit_sp_sp : accepts (Lit sp) sp = true.
Proof. reflexivity. Qed.

Lemma nonspace_not_lit c :
  accepts NonSpace c = true -> accepts (Lit sp) c = false.
Proof.
  intro H. simpl. destruct (Ascii.eqb_spec c sp) as [->|]; [|reflexivity].
  vm_compute in H. discriminate.
Qed.

Lemma space_not_nonspace c :
  accepts Space c = true -> accepts NonSpace c = false.
Proof. simpl. now intros ->. Qed.

Lemma nonspace_not_space c :
  accepts NonSpace c = true -> accepts Space c = false.
Proof. simpl. now destruct (is_space c). Qed.

Lemma match_chars_app a b s :
  match_chars (a ++ b) s
  = match match_chars a s with
    | Some s' => match_chars b s'
    | None => None
    end.
Proof.
  revert s. induction a as [|cc a IH]; intros s; simpl; [reflexivity|].
  destruct s as [|c s]; [reflexivity|]. destruct (accepts cc c); auto.
Qed.

Lemma run_chars R r ccs s g (k : str -> captures -> option R) :
  chars_of r = Some ccs ->
  run r s g k = match match_chars ccs s with
                | Some s' => k s' g
                | None => None
                end.
Proof.
  revert ccs s g k.
  induction r as [cc|cc|cc|r1 IH1 r2 IH2|r1 IH1 r2 IH2|n r1 IH1];
    intros ccs s g k H; simpl in H; try discriminate.
  - injection H as <-. simpl. destruct s as [|c s]; [reflexivity|].
    destruct (accepts cc c); reflexivity.
  - destruct (chars_of r1) as [a|]; [|discriminate].
    destruct (chars_of r2) as [b|]; [|discriminate].
    injection H as <-. simpl. rewrite (IH1 a), match_chars_app by reflexivity.
    destruct (match_chars a s) as [s'|]; [|reflexivity].
    now apply IH2.
Qed.

Lemma caps_text_cons c cs : caps_text (c :: cs) = c :: more_text cs.
Proof.
  revert c. induction cs as [|d cs IH]; intro c; [reflexivity|].
  change (caps_text (c :: d :: cs)) with (c :: sp :: caps_text (d :: cs)).
  now rewrite IH.
Qed.

Lemma match_more_ok cs t :
  forallb (accepts NonSpace) cs = true ->
  match_chars (more_classes (length cs)) (more_text cs ++ t) = Some t.
Proof.
  induction cs as [|c cs IH]; intro H; [reflexivity|].
  cbn [forallb] in H. apply andb_prop in H as [Hc H].
  cbn [length more_classes more_text app match_chars].
  rewrite lit_sp_sp, Hc. auto.
Qed.

(** A longer alternative than the field has codes either fails in the
    field, or ends inside the next token. *)
Lemma match_more_long j cs w plat s s' :
  length cs < j ->
  forallb (accepts NonSpace) cs = true ->
  gap w = true ->
  token plat = true ->
  (2 <=? length plat) || negb (str_eqb w [sp]) = true ->
  match_chars (more_classes j) (more_text cs ++ w ++ plat ++ s) = Some s' ->
  exists c s'', s' = c :: s'' /\ accepts NonSpace c = true.
Proof.
  revert j. induction cs as [|c cs IH]; intros j Hj Hcs Hw Hplat Hclear.
  - destruct j as [|j]; [inversion Hj|].
    destruct w as [|w0 w']; [discriminate|].
    destruct plat as [|p0 plat']; [discriminate|].
    cbn [gap token forallb] in Hw, Hplat.
    apply andb_prop in Hw as [Hw0 Hw'].
    apply andb_prop in Hplat as [Hp0 Hplat'].
    cbn [more_text more_classes app match_chars].
    destruct (accepts (Lit sp) w0) eqn:Esp; [|discriminate].
    destruct w' as [|w1 w''].
    + cbn [app match_chars]. rewrite Hp0.
      apply Ascii.eqb_eq in Esp. subst w0.
      destruct plat' as [|p1 plat'']; [discriminate Hclear|].
      cbn [forallb] in Hplat'. apply andb_prop in Hplat' as [Hp1 _].
      destruct j as [|j]; cbn [more_classes match_chars app].
      * intros [= <-]. eauto.
      * rewrite (nonspace_not_lit _ Hp1). discriminate.
    + cbn [forallb] in Hw'. apply andb_prop in Hw' as [Hw1 _].
      cbn [app match_chars]. rewrite (space_not_nonspace _ Hw1). discriminate.
  - destruct j as [|j]; [inversion Hj|].
    cbn [forallb] in Hcs. apply andb_prop in Hcs as [Hc Hcs].
    cbn [length more_text more_classes app match_chars].
    rewrite lit_sp_sp, Hc. apply IH; auto. simpl in Hj. lia.
Qed.

Section Caps.
Variable R : Type.
Variable k : str -> captures -> option R.
Hypothesis k_needs_space :
  forall c s g, accepts NonSpace c = true -> k (c :: s) g = None.

(** An alternative that is too long for the field is given up. *)
Lemma run_long_alternative n r j cs w plat s g :
  chars_of r = Some (caps_classes j) ->
  length cs < j ->
  cs <> [] ->
  forallb (accepts NonSpace) cs = true ->
  gap w = true ->
  token plat = true ->
  (2 <=? length plat) || negb (str_eqb w [sp]) = true ->
  run (Group n r) (caps_text cs ++ w ++ plat ++ s) g k = None.
Proof.
  intros Hr Hj Hne Hcs Hw Hplat Hclear.
  destruct cs as [|c cs]; [congruence|].
  cbn [run]. rewrite (run_chars _ _ _ _ Hr). rewrite caps_text_cons.
  unfold caps_classes. cbn [app match_chars].
  cbn [forallb] in Hcs. apply andb_prop in Hcs as [Hc Hcs]. rewrite Hc.
  destruct (match_chars _ _) as [s'|] eqn:E; [|reflexivity].
  apply match_more_long in E; auto; [|simpl in Hj; lia].
  destruct E as (c' & s'' & -> & Hc'). now apply k_needs_space.
Qed.

(** The alternative with as many codes as the field takes the field. *)
Lemma run_right_alternative n r cs t g :
  chars_of r = Some (caps_classes (length cs)) ->
  cs <> [] ->
  forallb (accepts NonSpace) cs = true ->
  run (Group n r) (caps_text cs ++ t) g k
  = k t ((n, caps_text cs) :: g).
Proof.
  intros Hr Hne Hcs. cbn [run]. rewrite (run_chars _ _ _ _ Hr).
  assert (E : match_chars (caps_classes (length cs)) (caps_text cs ++ t)
              = Some t).
  { destruct cs as [|c cs]; [congruence|].
    rewrite caps_text_cons. unfold caps_classes.
    cbn [length Nat.sub app match_chars].
    cbn [forallb] in Hcs. apply andb_prop in Hcs as [Hc Hcs]. rewrite Hc.
    rewrite Nat.sub_0_r. now apply match_more_ok. }
  rewrite E. now rewrite firstn_consumed.
Qed.
End Caps.

Lemma run_Alt R r1 r2 s g (k : str -> captures -> option R) :
  run (Alt r1 r2) s g k
  = match run r1 s g k with
    | Some x => Some x
    | None => run r2 s g k
    end.
Proof. reflexivity. Qed.

Lemma run_Group R n r s g (k : str -> captures -> option R) :
  run (Group n r) s g k
  = run r s g (fun s' g' => k s' ((n, firstn (length s - length s') s) :: g')).
Proof. reflexivity. Qed.

(** The capability group on a field of one to five codes, followed by
    white space and a platform token: the alternatives with more codes than
    the field fail, and the one with as many takes exactly the field,
    provided the rest of the pattern then succeeds. *)
Lemma run_caps_group R (k : str -> captures -> option R) cs w plat s g x :
  (forall c s g, accepts NonSpace c = true -> k (c :: s) g = None) ->
  (1 <=? length cs) && (length cs <=? 5) = true ->
  forallb (accepts NonSpace) cs = true ->
  gap w = true ->
  token plat = true ->
  (length cs =? 5) || (2 <=? length plat) || negb (str_eqb w [sp]) = true ->
  k (w ++ plat ++ s)
    ((4, caps_text cs) :: (caps_alt (length cs), caps_text cs) :: g) = Some x ->
  run caps_group (caps_text cs ++ w ++ plat ++ s) g k = Some x.
Proof.
  intros Hk Hlen Hcs Hw Hplat Hclear Hx.
  unfold caps_alt in Hx.
  unfold caps_group. rewrite run_Group.
  set (text := caps_text cs ++ w ++ plat ++ s).
  set (k4 := fun s' g' => k s' ((4, firstn (length text - length s') text) :: g')).
  assert (Hk4 : forall c s g, accepts NonSpace c = true -> k4 (c :: s) g = None)
    by (intros; apply Hk; assumption).
  subst text.
  destruct cs as [|c1 [|c2 [|c3 [|c4 [|c5 [|c6 cs]]]]]]; try discriminate Hlen.
  all: cbn [length Nat.sub] in Hx.
  all: try (assert (Hclear' : (2 <=? length plat) || negb (str_eqb w [sp]) = true)
             by exact Hclear).
  all: repeat (rewrite run_Alt;
               match goal with
               | |- context [run (Group ?n ?r) (caps_text ?cs ++ _) _ _] =>
                   rewrite (@run_long_alternative _ k4 Hk4 n r (10 - n) cs);
                   [ | reflexivity | simpl; lia | discriminate
                     | assumption | assumption | assumption | assumption ]
               end).
  all: try rewrite run_Alt.
  all: rewrite run_right_alternative;
    [ | reflexivity | discriminate | assumption ].
  all: unfold k4; rewrite firstn_consumed.
  all: first
         [ exact Hx
         | match goal with
           | |- match ?e with Some _ => _ | None => _ end = _ =>
               replace e with (Some x) by (symmetry; exact Hx); reflexivity
           end ].
Qed.

(** *** One row *)

Lemma token_inv t :
  token t = true -> t <> [] /\ forallb (accepts NonSpace) t = true.
Proof. destruct t; [discriminate|]. intro H. split; [discriminate | exact H]. Qed.

Lemma gap_inv w :
  gap w = true -> w <> [] /\ forallb (accepts Space) w = true.
Proof. destruct w; [discriminate|]. intro H. split; [discriminate | exact H]. Qed.

Lemma stops_after_token w s : gap w = true -> stops NonSpace (w ++ s) = true.
Proof.
  destruct w as [|c w]; [discriminate|]. cbn [gap forallb app stops].
  intro H. apply andb_prop in H as [H _].
  now rewrite (space_not_nonspace _ H).
Qed.

Lemma stops_after_gap t s : token t = true -> stops Space (t ++ s) = true.
Proof.
  destruct t as [|c t]; [discriminate|]. cbn [token forallb app stops].
  intro H. apply andb_prop in H as [H _].
  now rewrite (nonspace_not_space _ H).
Qed.

Lemma stops_before_caps cs s :
  cs <> [] -> forallb (accepts NonSpace) cs = true ->
  stops Space (caps_text cs ++ s) = true.
Proof.
  destruct cs as [|c cs]; [congruence|]. intros _ H. rewrite caps_text_cons.
  cbn [forallb app stops] in *. apply andb_prop in H as [H _].
  now rewrite (nonspace_not_space _ H).
Qed.

Lemma stops_before_port p s : line_rest p = true -> stops Space (p ++ s) = true.
Proof.
  destruct p as [|c p]; [discriminate|]. cbn [line_rest app stops].
  intro H. apply andb_prop in H as [H _].
  now rewrite (nonspace_not_space _ H).
Qed.

(** The local interface: two tokens joined by one space. *)
Lemma run_seq_two_tokens R n r a b rest g (k : str -> captures -> option R) :
  token a = true -> token b = true ->
  stops NonSpace rest = true ->
  (forall c, accepts NonSpace c = true -> head_ok r c = false) ->
  run (Seq (Group n (Seq (Plus NonSpace) (Seq (Chr (Lit sp)) (Plus NonSpace))))
           r)
      (a ++ sp :: b ++ rest) g k
  = run r rest ((n, a ++ sp :: b) :: g) k.
Proof.
  intros Ha Hb Hrest Hr.
  apply token_inv in Ha as [Hane Ha]. apply token_inv in Hb as [Hbne Hb].
  cbn [run]. rewrite plus_exact; auto.
  - rewrite lit_sp_sp, plus_exact; auto.
    + replace (a ++ sp :: b ++ rest) with ((a ++ sp :: b) ++ rest)
        by (now rewrite <- app_assoc).
      now rewrite firstn_consumed.
    + intros c s Hc. apply run_head. auto.
  - intros c s Hc. now rewrite (nonspace_not_lit _ Hc).
Qed.

(** The end of the pattern: white space, then the rest of the line. *)
Lemma run_rest_of_line w p rest g :
  gap w = true -> line_rest p = true -> stops Dot rest = true ->
  run (Seq (Plus Space) (Group 11 (Star Dot))) (w ++ p ++ rest) g
      (fun s' g' => Some (g', s'))
  = Some ((11, p) :: g, rest).
Proof.
  intros Hw Hp Hrest. apply gap_inv in Hw as [Hwne Hw].
  cbn [run]. apply plus_take; auto.
  - now apply stops_before_port.
  - apply star_take; auto.
    + destruct p as [|c p]; [discriminate|]. cbn [line_rest] in Hp.
      now apply andb_prop in Hp as [_ Hp].
    + now rewrite firstn_consumed.
Qed.

Ltac head_side :=
  let c := fresh "c" in
  let Hc := fresh "Hc" in
  intros c Hc;
  unfold caps_group, caps5, caps4, caps3, caps2, caps1, sptok, tok;
  cbn [head_ok accepts] in Hc |- *;
  destruct (is_space c); first [discriminate Hc | reflexivity].

(** A well-formed row is matched field by field, up to the end of its line. *)
Lemma match_row r rest :
  row_ok r = true -> platform_clear r = true -> stops Dot rest = true ->
  match_at ios_regex (render r ++ rest) = Some (row_captures r, rest).
Proof.
  unfold row_ok, platform_clear. intros Hok Hclear Hrest.
  repeat match type of Hok with
         | _ && _ = true => let H := fresh "H" in apply andb_prop in Hok as [Hok H]
         end.
  destruct r as [dev g1 i1 i2 g2 hold g3 cs g4 plat g5 port]; cbn [r_dev gap1 r_if1 r_if2 gap2 r_hold gap3 r_caps gap4 r_plat gap5 r_port] in *.
  unfold match_at, ios_regex, render, row_captures.
  cbn [r_dev gap1 r_if1 r_if2 gap2 r_hold gap3 r_caps gap4 r_plat gap5 r_port].
  repeat rewrite <- app_assoc. cbn [app].
  assert (Hcne : cs <> []) by (destruct cs; [discriminate H4 | discriminate]).
  rewrite run_seq_group_plus;
    [ | apply token_inv; assumption | apply token_inv; assumption
      | apply stops_after_token; assumption
      | head_side ].
  rewrite run_seq_plus;
    [ | apply gap_inv; assumption | apply gap_inv; assumption
      | apply stops_after_gap; assumption
      | head_side ].
  rewrite run_seq_two_tokens;
    [ | assumption | assumption | apply stops_after_token; assumption
      | head_side ].
  rewrite run_seq_plus;
    [ | apply gap_inv; assumption | apply gap_inv; assumption
      | apply stops_after_gap; assumption
      | head_side ].
  rewrite run_seq_group_plus;
    [ | apply token_inv; assumption | apply token_inv; assumption
      | apply stops_after_token; assumption
      | head_side ].
  rewrite run_seq_plus;
    [ | apply gap_inv; assumption | apply gap_inv; assumption
      | apply stops_before_caps; assumption
      | head_side ].
  change (run (Seq caps_group ?r) ?s ?g ?k)
    with (run caps_group s g (fun s' g' => run r s' g' k)).
  apply run_caps_group; try assumption.
  - intros c s g Hc. apply run_head. cbn [head_ok].
    now apply nonspace_not_space.
  - rewrite run_seq_plus;
      [ | apply gap_inv; assumption | apply gap_inv; assumption
        | apply stops_after_gap; assumption
        | head_side ].
    rewrite run_seq_group_plus;
      [ | apply token_inv; assumption | apply token_inv; assumption
        | apply stops_after_token; assumption
        | head_side ].
    now apply run_rest_of_line.
Qed.

Lemma groups_of_row r :
  (1 <=? length (r_caps r)) && (length (r_caps r) <=? 5) = true ->
  groups_tuple ios_regex_groups (row_captures r) = row_tuple r.
Proof.
  unfold row_captures, row_tuple, caps_alt. intro H.
  destruct (r_caps r) as [|c1 [|c2 [|c3 [|c4 [|c5 [|c6 cs]]]]]];
    try discriminate H; reflexivity.
Qed.

(** *** Every success is a match *)

Lemma star_sound R cc s (k : str -> option R) x :
  star cc s k = Some x ->
  exists p s', s = p ++ s' /\ forallb (accepts cc) p = true /\ k s' = Some x.
Proof.
  induction s as [|c s IH]; simpl; intro H.
  - exists [], []. auto.
  - destruct (accepts cc c) eqn:Hc.
    + destruct (star cc s k) as [y|] eqn:E.
      * injection H as <-. destruct (IH eq_refl) as (p & s' & -> & Hp & Hk).
        exists (c :: p), s'. simpl. rewrite Hc. auto.
      * exists [], (c :: s). auto.
    + exists [], (c :: s). auto.
Qed.

Lemma plus_sound R cc s (k : str -> option R) x :
  plus cc s k = Some x ->
  exists p s', s = p ++ s' /\ p <> [] /\ forallb (accepts cc) p = true
               /\ k s' = Some x.
Proof.
  destruct s as [|c s]; simpl; [discriminate|].
  destruct (accepts cc c) eqn:Hc; [|discriminate].
  intro H. apply star_sound in H as (p & s' & -> & Hp & Hk).
  exists (c :: p), s'. simpl. rewrite Hc. repeat split; auto. discriminate.
Qed.

(** Every success of the matcher is a match in the declarative sense, and
    the rest of the pattern went on from the end of that match. *)
Lemma run_sound R r s g (k : str -> captures -> option R) x :
  run r s g k = Some x ->
  exists p s' g', s = p ++ s' /\ matches r p g g' /\ k s' g' = Some x.
Proof.
  revert s g k.
  induction r as [cc|cc|cc|r1 IH1 r2 IH2|r1 IH1 r2 IH2|n r1 IH1];
    intros s g k H; cbn [run] in H.
  - destruct s as [|c s]; [discriminate|].
    destruct (accepts cc c) eqn:Hc; [|discriminate].
    exists [c], s, g. repeat split; auto. now constructor.
  - apply plus_sound in H as (p & s' & -> & Hne & Hp & Hk).
    exists p, s', g. repeat split; auto. now constructor.
  - apply star_sound in H as (p & s' & -> & Hp & Hk).
    exists p, s', g. repeat split; auto. now constructor.
  - apply IH1 in H as (p1 & s1 & g1 & -> & M1 & H).
    apply IH2 in H as (p2 & s2 & g2 & -> & M2 & H).
    exists (p1 ++ p2), s2, g2. rewrite <- app_assoc.
    repeat split; auto. econstructor; eauto.
  - destruct (run r1 s g k) as [y|] eqn:E.
    + injection H as <-. apply IH1 in E as (p & s' & g' & -> & M & Hk).
      exists p, s', g'. repeat split; auto. now apply M_alt_l.
    + apply IH2 in H as (p & s' & g' & -> & M & Hk).
      exists p, s', g'. repeat split; auto. now apply M_alt_r.
  - apply IH1 in H as (p & s' & g' & -> & M & Hk).
    rewrite firstn_consumed in Hk.
    exists p, s', ((n, p) :: g'). repeat split; auto. now constructor.
Qed.

Lemma match_at_sound r s g rest :
  match_at r s = Some (g, rest) ->
  exists p, s = p ++ rest /\ matches r p [] g.
Proof.
  unfold match_at. intro H.
  apply run_sound in H as (p & s' & g' & -> & M & [= <- <-]). eauto.
Qed.

(** *** [findall], match by match *)

Lemma findall_go_skip r n x rest :
  findall_go r n (x ++ rest) (length x) = findall_go r n rest 0.
Proof. induction x as [|c x IH]; [reflexivity | exact IH]. Qed.

Lemma findall_go_match r n p rest g :
  p <> [] ->
  match_at r (p ++ rest) = Some (g, rest) ->
  findall_go r n (p ++ rest) 0 = groups_tuple n g :: findall_go r n rest 0.
Proof.
  intros Hne H. destruct p as [|c p]; [congruence|].
  cbn [app findall_go]. cbn [app] in H. rewrite H. f_equal.
  replace (length (c :: p ++ rest) - length rest - 1) with (length p).
  - apply findall_go_skip.
  - cbn [length]. rewrite length_app. lia.
Qed.

Lemma findall_go_miss r n c s :
  match_at r (c :: s) = None ->
  findall_go r n (c :: s) 0 = findall_go r n s 0.
Proof. intro H. cbn [findall_go]. now rewrite H. Qed.

(** Every tuple [findall] reports comes from a match at some position. *)
Lemma findall_go_In r n s skip t :
  In t (findall_go r n s skip) ->
  exists pre s' g rest,
    s = pre ++ s' /\ match_at r s' = Some (g, rest) /\ t = groups_tuple n g.
Proof.
  revert skip. induction s as [|c s IH]; intros skip H; cbn [findall_go] in H.
  - destruct skip; [|contradiction].
    destruct (match_at r []) as [[g rest]|] eqn:E; [|contradiction].
    destruct H as [<-|[]]. exists [], [], g, rest. auto.
  - destruct skip as [|m].
    + destruct (match_at r (c :: s)) as [[g rest]|] eqn:E.
      * destruct H as [<-|H].
        -- exists [], (c :: s), g, rest. auto.
        -- apply IH in H as (pre & s' & g' & rest' & -> & Hm & ->).
           exists (c :: pre), s', g', rest'. auto.
      * apply IH in H as (pre & s' & g' & rest' & -> & Hm & ->).
        exists (c :: pre), s', g', rest'. auto.
    + apply IH in H as (pre & s' & g' & rest' & -> & Hm & ->).
      exists (c :: pre), s', g', rest'. auto.
Qed.

(** The row grammar never starts on white space, nor on the empty text. *)
Lemma ios_regex_space_head c s :
  accepts Space c = true -> match_at ios_regex (c :: s) = None.
Proof.
  intro H. unfold match_at. apply run_head. cbn [ios_regex head_ok].
  now apply space_not_nonspace.
Qed.

Lemma ios_regex_empty : match_at ios_regex [] = None.
Proof. reflexivity. Qed.

Lemma findall_go_blank n w s :
  forallb (accepts Space) w = true ->
  findall_go ios_regex n (w ++ s) 0 = findall_go ios_regex n s 0.
Proof.
  induction w as [|c w IH]; intro H; [reflexivity|].
  cbn [forallb] in H. apply andb_prop in H as [Hc H].
  cbn [app]. rewrite findall_go_miss by now apply ios_regex_space_head.
  auto.
Qed.

Lemma render_nonempty r : row_ok r = true -> render r <> [].
Proof.
  unfold row_ok, render. intro H.
  repeat match type of H with
         | _ && _ = true => apply andb_prop in H as [H _]
         end.
  destruct (r_dev r); [discriminate H | discriminate].
Qed.

Lemma row_ok_caps r :
  row_ok r = true ->
  (1 <=? length (r_caps r)) && (length (r_caps r) <=? 5) = true.
Proof.
  unfold row_ok. intro H.
  repeat match type of H with
         | _ && _ = true =>
             let H' := fresh "H" in apply andb_prop in H as [H H']
         end.
  assumption.
Qed.

(** A well-formed row at the head of the text gives its tuple, and the
    scan goes on after the row. *)
Lemma findall_go_row r rest :
  row_ok r = true -> platform_clear r = true -> stops Dot rest = true ->
  findall_go ios_regex ios_regex_groups (render r ++ rest) 0
  = row_tuple r :: findall_go ios_regex ios_regex_groups rest 0.
Proof.
  intros Hok Hclear Hrest.
  rewrite findall_go_match with (g := row_captures r).
  - now rewrite groups_of_row by now apply row_ok_caps.
  - now apply render_nonempty.
  - now apply match_row.
Qed.

(** *** Tables *)

(** A table of well-formed rows gives the tuples of its rows. *)
Lemma findall_go_table rows tail :
  rows_ok rows = true ->
  forallb (accepts Space) tail = true ->
  stops Dot tail = true ->
  findall_go ios_regex ios_regex_groups (table rows ++ tail) 0
  = map row_tuple rows.
Proof.
  unfold table, rows_ok. intros Hrows Htail Hstop.
  induction rows as [|r more IH].
  - cbn [map join app]. rewrite <- (app_nil_r tail).
    now rewrite findall_go_blank.
  - cbn [forallb] in Hrows. apply andb_prop in Hrows as [Hr Hmore].
    apply andb_prop in Hr as [Hok Hclear].
    destruct more as [|r' more'].
    + cbn [map join]. rewrite findall_go_row by assumption.
      f_equal. rewrite <- (app_nil_r tail). now rewrite findall_go_blank.
    + change (join [nl] (map render (r :: r' :: more')))
        with (render r ++ [nl] ++ join [nl] (map render (r' :: more'))).
      rewrite <- !app_assoc. rewrite findall_go_row; auto.
      cbn [map]. f_equal. cbn [app].
      rewrite findall_go_miss by (now apply ios_regex_space_head).
      now apply IH.
Qed.

(** Complete rows at the head of the text give their tuples, and the scan
    goes on after them. *)
Lemma findall_go_lines rows rest :
  rows_ok rows = true ->
  findall_go ios_regex ios_regex_groups (lines rows ++ rest) 0
  = map row_tuple rows ++ findall_go ios_regex ios_regex_groups rest 0.
Proof.
  unfold lines, rows_ok. intro Hrows. induction rows as [|r more IH].
  - reflexivity.
  - cbn [forallb] in Hrows. apply andb_prop in Hrows as [Hr Hmore].
    apply andb_prop in Hr as [Hok Hclear].
    cbn [map concat]. rewrite <- !app_assoc. rewrite findall_go_row; auto.
    cbn [app]. rewrite findall_go_miss by (now apply ios_regex_space_head).
    now rewrite IH.
Qed.

(** *** The device id and the white space after it *)

Lemma ios_regex_after_dev :
  ios_regex = Seq (Group 1 (Plus NonSpace)) (Seq (Plus Space) row_after_dev).
Proof. reflexivity. Qed.

(** Whatever white space separates the device id from the other columns,
    the match goes on from the first of these columns in the same way. *)
Lemma match_at_dev dev w tail :
  token dev = true -> gap w = true -> stops Space tail = true ->
  match_at ios_regex (dev ++ w ++ tail)
  = run row_after_dev tail [(1, dev)] (fun s' g => Some (g, s')).
Proof.
  intros Hdev Hw Htail. unfold match_at. rewrite ios_regex_after_dev.
  unfold row_after_dev.
  rewrite run_seq_group_plus;
    [ | apply token_inv; assumption | apply token_inv; assumption
      | apply stops_after_token; assumption | head_side ].
  rewrite run_seq_plus;
    [ | apply gap_inv; assumption | apply gap_inv; assumption
      | assumption | head_side ].
  reflexivity.
Qed.

(** So the tuples do not depend on that white space. *)
Lemma findall_go_wrap n dev w w' tail :
  forallb (accepts NonSpace) dev = true ->
  gap w = true -> gap w' = true -> stops Space tail = true ->
  findall_go ios_regex n (dev ++ w ++ tail) 0
  = findall_go ios_regex n (dev ++ w' ++ tail) 0.
Proof.
  intros Hdev Hw Hw' Htail. induction dev as [|c d IH].
  - cbn [app].
    rewrite (findall_go_blank n w tail), (findall_go_blank n w' tail);
      auto; now apply gap_inv.
  - assert (Htok : token (c :: d) = true) by exact Hdev.
    cbn [forallb] in Hdev. apply andb_prop in Hdev as [Hc Hd].
    pose proof (match_at_dev _ _ _ Htok Hw Htail) as E.
    pose proof (match_at_dev _ _ _ Htok Hw' Htail) as E'.
    match type of E with
    | _ = ?t => remember t as o eqn:Hrun in *
    end.
    destruct o as [[g rest]|].
    + symmetry in Hrun.
      apply run_sound in Hrun as (p & s' & g' & -> & _ & [= <- <-]).
      rewrite (app_assoc (c :: d)), (app_assoc ((c :: d) ++ w)) in E.
      rewrite (app_assoc (c :: d)), (app_assoc ((c :: d) ++ w')) in E'.
      rewrite (app_assoc (c :: d) w), (app_assoc ((c :: d) ++ w) p).
      rewrite (app_assoc (c :: d) w'), (app_assoc ((c :: d) ++ w') p).
      rewrite (@findall_go_match ios_regex n (((c :: d) ++ w) ++ p) s' g');
        [ | discriminate | exact E ].
      rewrite (@findall_go_match ios_regex n (((c :: d) ++ w') ++ p) s' g');
        [ | discriminate | exact E' ].
      reflexivity.
    + cbn [app] in E, E' |- *.
      rewrite (findall_go_miss ios_regex n _ _ E).
      rewrite (findall_go_miss ios_regex n _ _ E').
      auto.
Qed.

(** ** Splitting, tuples and pieces of text *)

Lemma contains_startswith_app a b s :
  startswith (a ++ b) s = true -> startswith a s = true.
Proof.
  revert s. induction a as [|x a IH]; intros s H; [reflexivity|].
  destruct s as [|y s]; [discriminate|]. cbn [app startswith] in *.
  apply andb_prop in H as [H1 H2]. rewrite H1. cbn. now apply IH.
Qed.

Lemma split_go_absent sep s cur :
  contains sep s = false -> split_go sep s 0 cur = [cur ++ s].
Proof.
  revert cur. induction s as [|c s IH]; intros cur H.
  - cbn. now rewrite app_nil_r.
  - cbn [contains] in H. apply orb_false_elim in H as [H1 H2].
    cbn [split_go]. rewrite H1, IH by assumption.
    now rewrite <- app_assoc.
Qed.

Lemma contains_longer a b s :
  contains a s = false -> contains (a ++ b) s = false.
Proof.
  induction s as [|c s IH]; cbn [contains]; intro H.
  - apply orb_false_elim in H as [H _]. rewrite orb_false_r.
    destruct (startswith (a ++ b) []) eqn:E; [|reflexivity].
    apply contains_startswith_app in E. congruence.
  - apply orb_false_elim in H as [H1 H2]. rewrite (IH H2), orb_false_r.
    destruct (startswith (a ++ b) (c :: s)) eqn:E; [|reflexivity].
    apply contains_startswith_app in E. congruence.
Qed.

(** Without the marker there is one piece only, and [[1]] is out of range. *)
Lemma split_without_marker text :
  contains (lit "Port ID") text = false ->
  list_get (py_split text port_id_marker) 1 = Raise IndexError.
Proof.
  intro H. unfold py_split, port_id_marker.
  rewrite split_go_absent by now apply contains_longer. reflexivity.
Qed.

Lemma groups_tuple_length n g : length (groups_tuple n g) = n.
Proof. unfold groups_tuple. now rewrite length_map, length_seq. Qed.

Lemma findall_length r n s t : In t (findall r n s) -> length t = n.
Proof.
  unfold findall. intro H.
  apply findall_go_In in H as (pre & s' & g & rest & _ & _ & ->).
  apply groups_tuple_length.
Qed.

Lemma tuple_get_nth t i :
  i < length t -> tuple_get t i = Ret (PStr (nth i t [])).
Proof.
  intro H. unfold tuple_get.
  destruct (nth_error t i) as [x|] eqn:E.
  - now rewrite (nth_error_nth _ _ _ E).
  - apply nth_error_None in E. lia.
Qed.

Ltac invert_matches :=
  repeat match goal with
         | H : matches (Seq _ _) _ _ _ |- _ => inversion H; subst; clear H
         | H : matches (Group _ _) _ _ _ |- _ => inversion H; subst; clear H
         | H : matches (Plus _) _ _ _ |- _ => inversion H; subst; clear H
         | H : matches (Star _) _ _ _ |- _ => inversion H; subst; clear H
         | H : matches (Chr _) _ _ _ |- _ => inversion H; subst; clear H
         | H : matches (Alt _ _) _ _ _ |- _ => inversion H; subst; clear H
         end.

Lemma token_intro t :
  t <> [] -> forallb (accepts NonSpace) t = true -> token t = true.
Proof. destruct t; [congruence | auto]. Qed.

(** Every match of the row grammar has the seven parts in this order; the
    device id and the two interface tokens are non-empty and free of white
    space, and the last part holds no newline. *)
Lemma ios_match_shape p g0 g :
  matches ios_regex p g0 g ->
  exists dev a b port mid,
    p = dev ++ mid ++ port
    /\ piece_of (a ++ sp :: b) mid
    /\ token dev = true /\ token a = true /\ token b = true
    /\ forallb (accepts Dot) port = true
    /\ group 1 g = Some dev
    /\ group 2 g = Some (a ++ sp :: b)
    /\ group 11 g = Some port.
Proof.
  intro H. unfold ios_regex, caps_group, caps5, caps4, caps3, caps2, caps1,
    sptok, tok in H.
  invert_matches.
  all: match goal with
       | H : accepts (Lit sp) ?c = true
         |- exists dev a b port mid,
           ?d ++ ?w1 ++ (?x ++ [?c] ++ ?y) ++ ?w2 ++ ?h ++ ?w3 ++ ?caps
              ++ ?w4 ++ ?pl ++ ?w5 ++ ?po = _ /\ _ =>
           apply Ascii.eqb_eq in H; subst c;
           exists d, x, y, po,
             (w1 ++ (x ++ [sp] ++ y) ++ w2 ++ h ++ w3 ++ caps ++ w4 ++ pl ++ w5);
           assert (Hmid : piece_of (x ++ sp :: y)
                            (w1 ++ (x ++ [sp] ++ y) ++ w2 ++ h ++ w3 ++ caps
                                ++ w4 ++ pl ++ w5))
             by (exists w1, (w2 ++ h ++ w3 ++ caps ++ w4 ++ pl ++ w5);
                 reflexivity)
       end.
  all: repeat split; try assumption; try reflexivity;
    try (now apply token_intro).
  all: repeat rewrite <- app_assoc; reflexivity.
Qed.

Lemma piece_of_trans a b c : piece_of a b -> piece_of b c -> piece_of a c.
Proof.
  intros (p1 & q1 & ->) (p2 & q2 & ->).
  exists (p2 ++ p1), (q1 ++ q2). now rewrite <- !app_assoc.
Qed.

Lemma piece_of_cons c x s : piece_of x s -> piece_of x (c :: s).
Proof. intros (p & q & ->). now exists (c :: p), q. Qed.

(** Every piece [split] returns is a piece of the text. *)
Lemma split_go_piece sep s skip cur x :
  skip = 0 \/ cur = [] ->
  In x (split_go sep s skip cur) ->
  (exists p post, x = cur ++ p /\ s = p ++ post) \/ piece_of x s.
Proof.
  revert skip cur. induction s as [|c s IH]; intros skip cur Hinv H.
  - cbn in H. destruct H as [<-|[]]. left. exists [], []. now rewrite app_nil_r.
  - cbn [split_go] in H. destruct skip as [|m].
    + destruct (startswith sep (c :: s)).
      * destruct H as [<-|H].
        -- left. exists [], (c :: s). now rewrite app_nil_r.
        -- right. apply piece_of_cons.
           destruct (IH _ _ (or_intror eq_refl) H) as [(p & post & -> & ->)|Hp];
             [|assumption].
           now exists [], post.
      * destruct (IH _ _ (or_introl eq_refl) H) as [(p & post & -> & ->)|Hp].
        -- left. exists (c :: p), post. now rewrite <- app_assoc.
        -- right. now apply piece_of_cons.
    + destruct Hinv as [Hinv| ->]; [discriminate|].
      right. apply piece_of_cons.
      destruct (IH _ _ (or_intror eq_refl) H) as [(p & post & -> & ->)|Hp];
        [|assumption].
      now exists [], post.
Qed.

Lemma split_piece text sep i seg :
  list_get (py_split text sep) i = Ret seg -> piece_of seg text.
Proof.
  unfold list_get, py_split. intro H.
  destruct (nth_error (split_go sep text 0 []) i) as [x|] eqn:E;
    [|discriminate].
  injection H as ->. apply nth_error_In in E.
  destruct (@split_go_piece sep text 0 [] seg (or_introl eq_refl) E) as [(p & post & -> & ->)|Hp];
    [|assumption].
  now exists [], post.
Qed.

(** The record of a tuple [findall] reports for the row grammar, in terms
    of the match it comes from. *)
Lemma ios_tuple_record seg t :
  In t (findall ios_regex ios_regex_groups seg) ->
  exists dev a b port,
    tuple_record t
    = neighbor_record (PStr port) (PStr (a ++ sp :: b)) (PStr dev)
    /\ token dev = true /\ token a = true /\ token b = true
    /\ forallb (accepts Dot) port = true
    /\ piece_of dev seg /\ piece_of (a ++ sp :: b) seg /\ piece_of port seg.
Proof.
  unfold findall. intro H.
  apply findall_go_In in H as (pre & s' & g & rest & -> & Hm & ->).
  apply match_at_sound in Hm as (p & -> & Hm).
  apply ios_match_shape in Hm
    as (dev & a & b & port & mid & -> & (m1 & m2 & ->) & Hdev & Ha & Hb
        & Hport & G1 & G2 & G11).
  exists dev, a, b, port.
  repeat split; try assumption.
  - unfold tuple_record, groups_tuple, ios_regex_groups.
    cbn [seq map nth]. now rewrite G1, G2, G11.
  - exists pre, ((m1 ++ (a ++ sp :: b) ++ m2) ++ port ++ rest).
    now rewrite <- !app_assoc.
  - exists (pre ++ dev ++ m1), (m2 ++ port ++ rest).
    now rewrite <- !app_assoc.
  - exists (pre ++ dev ++ m1 ++ (a ++ sp :: b) ++ m2), rest.
    now rewrite <- !app_assoc.
Qed.

(** ** Splitting at the header marker *)

Lemma split_go_skip sep x rest cur :
  split_go sep (x ++ rest) (length x) cur = split_go sep rest 0 cur.
Proof. induction x as [|c x IH]; [reflexivity | exact IH]. Qed.

Lemma startswith_app sep rest : startswith sep (sep ++ rest) = true.
Proof.
  induction sep as [|c sep IH]; [reflexivity|].
  cbn. now rewrite Ascii.eqb_refl.
Qed.

Lemma startswith_inv sep s :
  startswith sep s = true -> exists rest, s = sep ++ rest.
Proof.
  revert s. induction sep as [|c sep IH]; intros s H.
  - now exists s.
  - destruct s as [|d s]; [discriminate|]. cbn in H.
    apply andb_prop in H as [Hc H]. apply Ascii.eqb_eq in Hc. subst d.
    destruct (IH s H) as (rest & ->). now exists rest.
Qed.

Lemma split_go_length sep s skip cur : 1 <= length (split_go sep s skip cur).
Proof.
  revert skip cur. induction s as [|c s IH]; intros skip cur; cbn.
  - lia.
  - destruct skip; [|apply IH].
    destruct (startswith sep (c :: s)); [cbn; lia | apply IH].
Qed.

(** With the marker in the text there are at least two pieces. *)
Lemma split_go_found sep s cur :
  sep <> [] ->
  contains sep s = true -> 2 <= length (split_go sep s 0 cur).
Proof.
  intro Hsep. revert cur. induction s as [|c s IH]; intros cur H.
  - destruct sep; [congruence | discriminate].
  - cbn [contains] in H. cbn [split_go].
    destruct (startswith sep (c :: s)).
    + cbn [length]. pose proof (split_go_length sep s (length sep - 1) []). lia.
    + cbn in H. now apply IH.
Qed.

(** When the first occurrence of [sep] is right after [pre], the first
    piece is [pre] and the scan goes on after the occurrence. *)
Lemma split_go_first sep pre rest cur :
  sep <> [] ->
  starts_none sep pre (sep ++ rest) = true ->
  split_go sep (pre ++ sep ++ rest) 0 cur
  = (cur ++ pre) :: split_go sep rest 0 [].
Proof.
  intros Hsep. revert cur. induction pre as [|c pre IH]; intros cur H.
  - destruct sep as [|d sep]; [congruence|].
    cbn [app split_go]. rewrite app_nil_r.
    change (startswith (d :: sep) (d :: sep ++ rest))
      with (startswith (d :: sep) ((d :: sep) ++ rest)).
    rewrite startswith_app. f_equal.
    replace (length (d :: sep) - 1) with (length sep) by (cbn; lia).
    apply split_go_skip.
  - cbn [starts_none] in H. apply andb_prop in H as [H1 H2].
    apply negb_true_iff in H1. cbn [app split_go]. cbn [app] in H1.
    rewrite H1, IH by assumption. now rewrite <- app_assoc.
Qed.

Lemma split_at_marker pre body :
  starts_none port_id_marker pre (port_id_marker ++ body) = true ->
  contains port_id_marker body = false ->
  py_split (pre ++ port_id_marker ++ body) port_id_marker = [pre; body].
Proof.
  intros H1 H2. unfold py_split.
  rewrite split_go_first by (assumption || discriminate).
  now rewrite split_go_absent.
Qed.

(** ** Dicts and renderings *)

Lemma str_eqb_eq a b : str_eqb a b = true <-> a = b.
Proof.
  unfold str_eqb. destruct (list_eq_dec ascii_dec a b); split; congruence.
Qed.

Lemma str_eqb_refl a : str_eqb a a = true.
Proof. now apply str_eqb_eq. Qed.

Lemma str_eqb_neq a b : a <> b -> str_eqb a b = false.
Proof.
  intro H. destruct (str_eqb a b) eqn:E; [|reflexivity].
  apply str_eqb_eq in E. contradiction.
Qed.

Lemma dict_get_set_same d k v : dict_get (dict_set d k v) k = Some v.
Proof.
  induction d as [|[k' v'] d IH]; cbn [dict_set dict_get].
  - now rewrite str_eqb_refl.
  - destruct (str_eqb k k') eqn:E; cbn [dict_get]; rewrite E; auto.
Qed.

Lemma dict_get_set_other d k k' v :
  k <> k' -> dict_get (dict_set d k' v) k = dict_get d k.
Proof.
  intro H. induction d as [|[k0 v0] d IH]; cbn [dict_set dict_get].
  - now rewrite (str_eqb_neq H).
  - destruct (str_eqb k' k0) eqn:E; cbn [dict_get].
    + apply str_eqb_eq in E. subst k0. now rewrite (str_eqb_neq H).
    + now rewrite IH.
Qed.




Lemma repr_byte_plain c : plain_byte c = true -> repr_byte quote1 c = [c].
Proof.
  unfold plain_byte, repr_byte. intro H.
  repeat (apply andb_prop in H as [H ?]).
  repeat match goal with
         | H : negb _ = true |- _ => apply negb_true_iff in H; rewrite H
         end.
  apply Nat.leb_le in H. apply Nat.ltb_lt in H2.
  cbn [orb].
  destruct (Nat.eqb_spec (nat_of_ascii c) 9); [lia|].
  destruct (Nat.eqb_spec (nat_of_ascii c) 10); [lia|].
  destruct (Nat.eqb_spec (nat_of_ascii c) 13); [lia|].
  destruct (Nat.ltb_spec (nat_of_ascii c) 32); [lia|].
  destruct (Nat.leb_spec 127 (nat_of_ascii c)); [lia|].
  reflexivity.
Qed.

Lemma bytes_repr_plain b :
  forallb plain_byte b = true ->
  bytes_repr b = "b"%char :: quote1 :: b ++ [quote1].
Proof.
  intro H. unfold bytes_repr.
  assert (Hq : mem_char quote1 b = false).
  { induction b as [|c b IH]; [reflexivity|].
    cbn [forallb] in H. apply andb_prop in H as [Hc H].
    cbn [mem_char existsb]. fold (mem_char quote1 b). rewrite (IH H).
    unfold plain_byte in Hc. repeat (apply andb_prop in Hc as [Hc ?]).
    rewrite Ascii.eqb_sym.
    match goal with
    | H : negb (Ascii.eqb c quote1) = true |- _ =>
        apply negb_true_iff in H; now rewrite H
    end. }
  rewrite Hq. cbn [andb]. do 2 f_equal. f_equal. clear Hq.
  induction b as [|c b IH]; [reflexivity|].
  cbn [forallb] in H. apply andb_prop in H as [Hc H].
  cbn [flat_map]. now rewrite (repr_byte_plain _ Hc), IH.
Qed.

Lemma unrepr_byte q c s :
  q = quote1 \/ q = quote2 ->
  unrepr_go (repr_byte q c ++ s) = option_map (cons c) (unrepr_go s).
Proof.
  intros [->| ->]; destruct c as [[] [] [] [] [] [] [] []]; reflexivity.
Qed.

Lemma unrepr_flat q b :
  q = quote1 \/ q = quote2 ->
  unrepr_go (flat_map (repr_byte q) b) = Some b.
Proof.
  intro Hq. induction b as [|c b IH]; [reflexivity|].
  cbn [flat_map]. now rewrite unrepr_byte, IH.
Qed.

(** [repr] of a bytes object loses nothing: the bytes can be read back. *)
Lemma bytes_unrepr_repr b : bytes_unrepr (bytes_repr b) = Some b.
Proof.
  unfold bytes_repr, bytes_unrepr. rewrite removelast_last.
  apply unrepr_flat.
  destruct (mem_char quote1 b && negb (mem_char quote2 b)); auto.
Qed.

(* ================================================================= *)
(** ** The extractors, step by step *)

Section ProgramFacts.

Variable World : Type.
Variable Conn : Type.
Variable Node : Type.
Variable requests_post : http_request -> World -> outcome response * World.
Variable getpass : str -> World -> outcome str * World.
Variable ConnectHandler :
  str -> str -> str -> str -> World -> outcome Conn * World.
Variable send_command : Conn -> str -> World -> outcome str * World.
Variable connect_to : str -> World -> outcome Node * World.
Variable enable : Node -> str -> World -> outcome pyval * World.

Local Abbreviation nxos := (nxos_cdp_filter requests_post getpass).
Local Abbreviation ios := (ios_cdp_filter getpass ConnectHandler send_command).
Local Abbreviation ios_body := (ios_cdp_body getpass ConnectHandler send_command).
Local Abbreviation eos := (eos_lldp_filter connect_to enable).
Local Abbreviation eos_body := (eos_lldp_body connect_to enable).
Local Abbreviation step :=
  (main_step requests_post getpass ConnectHandler send_command
             connect_to enable).
Local Abbreviation loop :=
  (main_loop requests_post getpass ConnectHandler send_command
             connect_to enable).
Local Abbreviation ios_text := (ios_fetch getpass ConnectHandler send_command).
Local Abbreviation eos_result := (eos_fetch connect_to enable).

Lemma for_append_Forall2 {A B} (P : A -> B -> Prop) (l : list A)
      (body : A -> M World B) acc st :
  (forall x, In x l -> exists y, P x y /\ forall st', body x st' = (Ret y, st')) ->
  exists ys, Forall2 P l ys
             /\ for_append l body acc st = (Ret (acc ++ ys), st).
Proof.
  revert acc. induction l as [|x l IH]; intros acc H.
  - exists []. split; [constructor|]. cbn. now rewrite app_nil_r.
  - destruct (H x (or_introl eq_refl)) as (y & Py & Hy).
    destruct (IH (acc ++ [y]) (fun z Hz => H z (or_intror Hz)))
      as (ys & Hys & E).
    exists (y :: ys). split; [now constructor|].
    cbn [for_append]. unfold bind. rewrite Hy, E.
    now rewrite <- app_assoc.
Qed.

Lemma for_append_map {A B} (f : A -> B) (l : list A)
      (body : A -> M World B) acc st :
  (forall x, In x l -> forall st', body x st' = (Ret (f x), st')) ->
  for_append l body acc st = (Ret (acc ++ map f l), st).
Proof.
  revert acc. induction l as [|x l IH]; intros acc H.
  - cbn. now rewrite app_nil_r.
  - cbn [for_append map]. unfold bind. rewrite (H x (or_introl eq_refl)).
    rewrite IH by (intros z Hz; apply H; now right).
    now rewrite <- app_assoc.
Qed.

(** *** Structured-A *)

Lemma nxos_not_ok device user pw st r w1 :
  requests_post (nxos_request device user pw) (world st) = (Ret r, w1) ->
  ok r = false ->
  nxos device user (Some pw) st
  = (Ret PNone,
     say (moved (posted st (nxos_request device user pw)) w1)
         (Line (nxos_failed_message r))).
Proof.
  intros Hpost Hok.
  unfold nxos_cdp_filter, NxSwitch_init, nx_cdp, bind, ret, log_post,
    external, print.
  cbn [world posted]. fold (nxos_request device user pw).
  rewrite Hpost, Hok. reflexivity.
Qed.

(** On a success flag the extractor posts a second time, and reads the
    table from the second response. *)
Lemma nxos_ok device user pw st r1 w1 o2 w2 :
  requests_post (nxos_request device user pw) (world st) = (Ret r1, w1) ->
  ok r1 = true ->
  requests_post (nxos_request device user pw) w1 = (o2, w2) ->
  let req := nxos_request device user pw in
  let st2 := moved (posted (moved (posted st req) w1) req) w2 in
  nxos device user (Some pw) st
  = match o2 with
    | Raise e => (Raise e, st2)
    | Ret r2 =>
        match json r2 with
        | Raise e => (Raise e, st2)
        | Ret doc =>
            match getpath doc nxos_path with
            | Raise e => (Raise e, st2)
            | Ret tbl =>
                match py_iter tbl with
                | Raise e => (Raise e, st2)
                | Ret entries =>
                    bind (for_append entries
                            (fun neighbor =>
                               neighbor_dict
                                 (getitem neighbor (lit "port_id"))
                                 (getitem neighbor (lit "intf_id"))
                                 (getitem neighbor (lit "device_id")))
                            [])
                         (fun all_neighbors => ret (PList all_neighbors)) st2
                end
            end
        end
    end.
Proof.
  intros Hpost Hok Hpost2 req st2.
  unfold nxos_cdp_filter, NxSwitch_init, nx_cdp, bind, ret, log_post,
    external, lift.
  cbn [world posted moved]. fold (nxos_request device user pw).
  rewrite Hpost, Hok. cbn [world posted moved]. rewrite Hpost2.
  destruct o2 as [r2|e]; [|reflexivity].
  destruct (json r2) as [doc|e]; [|reflexivity].
  destruct (getpath doc nxos_path) as [tbl|e]; [|reflexivity].
  destruct (py_iter tbl) as [entries|e]; reflexivity.
Qed.

(** *** Text-Tabular *)

Lemma ios_tuples_records (l : list (list str)) acc (st : state World) :
  (forall t, In t l -> length t = ios_regex_groups) ->
  for_append l
    (fun neighbor =>
       neighbor_dict (World := World) (tuple_get neighbor 10)
                     (tuple_get neighbor 1) (tuple_get neighbor 0))
    acc st
  = (Ret (acc ++ map tuple_record l), st).
Proof.
  intro H. apply for_append_map. intros t Ht st'.
  specialize (H t Ht). unfold ios_regex_groups in H.
  rewrite !tuple_get_nth by lia. reflexivity.
Qed.

(** The [try] block, once the text is fetched: split at the marker, scan
    the part after it, one record per tuple. *)
Lemma ios_body_spec device user pw st :
  ios_body device user pw st
  = match ios_text device user pw st with
    | (Raise e, st') => (Raise e, st')
    | (Ret text, st') =>
        match list_get (py_split text port_id_marker) 1 with
        | Raise e => (Raise e, st')
        | Ret seg =>
            (Ret (PList (map tuple_record
                             (findall ios_regex ios_regex_groups seg))), st')
        end
    end.
Proof.
  unfold ios_cdp_body, ios_fetch, bind.
  destruct (IosSwitch_init getpass device user pw st) as [[sw|e] st1];
    [|reflexivity].
  destruct (ios_cdp ConnectHandler send_command sw st1) as [[text|e] st2];
    [|reflexivity].
  unfold lift.
  destruct (list_get (py_split text port_id_marker) 1) as [seg|e];
    [|reflexivity].
  rewrite ios_tuples_records by (intros t Ht; now apply findall_length in Ht).
  reflexivity.
Qed.

Lemma ios_filter_spec device user pw st :
  ios device user pw st
  = match ios_body device user pw st with
    | (Ret v, st') => (Ret v, st')
    | (Raise _, st') =>
        (Ret PNone, say st' (Line (lit "Couldn't login into " ++ device)))
    end.
Proof.
  unfold ios_cdp_filter, try_except.
  destruct (ios_body device user pw st) as [[v|e] st']; reflexivity.
Qed.

(** The extractor by cases on the text fetched. *)
Lemma split_marker_cases text :
  list_get (py_split text port_id_marker) 1
  = if contains port_id_marker text
    then Ret (nth 1 (py_split text port_id_marker) [])
    else Raise IndexError.
Proof.
  destruct (contains port_id_marker text) eqn:E.
  - unfold list_get, py_split.
    pose proof (@split_go_found port_id_marker text []
                  ltac:(discriminate) E) as L.
    destruct (split_go port_id_marker text 0 []) as [|a [|b l]];
      cbn in L; try lia. reflexivity.
  - unfold list_get, py_split. now rewrite split_go_absent.
Qed.

Lemma ios_cases device user pw st :
  ios device user pw st
  = match ios_text device user pw st with
    | (Raise _, st') =>
        (Ret PNone, say st' (Line (lit "Couldn't login into " ++ device)))
    | (Ret text, st') =>
        if contains port_id_marker text
        then (Ret (PList (map tuple_record
                            (findall ios_regex ios_regex_groups
                               (nth 1 (py_split text port_id_marker) [])))),
              st')
        else (Ret PNone, say st' (Line (lit "Couldn't login into " ++ device)))
    end.
Proof.
  rewrite ios_filter_spec, ios_body_spec.
  destruct (ios_text device user pw st) as [[text|e] st']; [|reflexivity].
  rewrite split_marker_cases.
  destruct (contains port_id_marker text); reflexivity.
Qed.

(** *** Structured-B *)

Lemma eos_body_spec device st :
  eos_body {| eos_host := device |} st
  = match eos_result device st with
    | (Raise e, st') => (Raise e, st')
    | (Ret res, st') =>
        match getindex res 0 with
        | Raise e => (Raise e, st')
        | Ret lldp_data =>
            match getpath lldp_data eos_path with
            | Raise e => (Raise e, st')
            | Ret tbl =>
                match py_iter tbl with
                | Raise e => (Raise e, st')
                | Ret entries =>
                    bind (for_append entries
                            (fun neighbor =>
                               neighbor_dict
                                 (getitem neighbor (lit "neighborPort"))
                                 (getitem neighbor (lit "port"))
                                 (getitem neighbor (lit "neighborDevice")))
                            [])
                         (fun all_neighbors => ret (PList all_neighbors)) st'
                end
            end
        end
    end.
Proof.
  unfold eos_lldp_body, eos_fetch, bind.
  destruct (eos_connect connect_to {| eos_host := device |} st)
    as [[conn|e] st1]; [|reflexivity].
  destruct (eos_lldp_neighbors enable {| eos_host := device |} conn st1)
    as [[res|e] st2]; [|reflexivity].
  unfold lift.
  destruct (getindex res 0) as [d0|e]; [|reflexivity].
  destruct (getpath d0 eos_path) as [tbl|e]; [|reflexivity].
  destruct (py_iter tbl) as [entries|e]; reflexivity.
Qed.

Lemma eos_filter_spec device st :
  eos device st
  = match eos_body {| eos_host := device |} st with
    | (Ret v, st') => (Ret v, st')
    | (Raise _, st') =>
        (Ret PNone, say st' (Line (lit "Couldn't login into: " ++ device)))
    end.
Proof.
  unfold eos_lldp_filter, EosSwitch_init, try_except, bind, ret.
  destruct (eos_body {| eos_host := device |} st) as [[v|e] st']; reflexivity.
Qed.

(** A structured entry list whose entries all carry the three keys gives
    one record per entry, in order. *)
Lemma entries_records kp ki kd entries (st : state World) :
  Forall (fun e => exists rec, maps_fields kp ki kd e rec) entries ->
  exists recs,
    Forall2 (maps_fields kp ki kd) entries recs
    /\ bind (for_append entries
               (fun neighbor =>
                  neighbor_dict (getitem neighbor kp) (getitem neighbor ki)
                                (getitem neighbor kd))
               [])
            (fun all_neighbors => ret (PList all_neighbors)) st
       = (Ret (PList recs), st).
Proof.
  intro H.
  destruct (for_append_Forall2 (maps_fields kp ki kd) entries
              (fun neighbor =>
                 neighbor_dict (World := World) (getitem neighbor kp)
                   (getitem neighbor ki) (getitem neighbor kd)) [] st)
    as (recs & HF & E).
  - intros e He. rewrite Forall_forall in H.
    destruct (H e He) as (rec & a & b & c & Ha & Hb & Hc & ->).
    exists (neighbor_record a b c). split.
    + exists a, b, c. auto.
    + intro st'. now rewrite Ha, Hb, Hc.
  - exists recs. split; [assumption|]. unfold bind. now rewrite E.
Qed.

(** *** The loop of [main] *)

Lemma step_nxos user pw inv d st :
  os d = lit "nxos" ->
  step user pw inv d st
  = match nxos (ip d) user (Some pw) st with
    | (Ret r, st') => (Ret (dict_set inv (hostname d) r), st')
    | (Raise e, st') => (Raise e, st')
    end.
Proof.
  intro H. unfold main_step. rewrite H. cbn [str_eqb].
  change (str_eqb (lit "nxos") (lit "nxos")) with true. cbv iota.
  unfold bind, ret.
  destruct (nxos (ip d) user (Some pw) st) as [[r|e] st']; reflexivity.
Qed.

Lemma step_ios user pw inv d st :
  os d = lit "ios" ->
  step user pw inv d st
  = match ios (ip d) user (Some pw) st with
    | (Ret r, st') => (Ret (dict_set inv (hostname d) r), st')
    | (Raise e, st') => (Raise e, st')
    end.
Proof.
  intro H. unfold main_step. rewrite H.
  change (str_eqb (lit "ios") (lit "nxos")) with false.
  change (str_eqb (lit "ios") (lit "ios")) with true. cbv iota.
  unfold bind, ret.
  destruct (ios (ip d) user (Some pw) st) as [[r|e] st']; reflexivity.
Qed.


Lemma loop_cons user pw d rest inv st :
  loop user pw (d :: rest) inv st
  = match step user pw inv d st with
    | (Ret inv', st') => loop user pw rest inv' st'
    | (Raise e, st') => (Raise e, st')
    end.
Proof. reflexivity. Qed.

End ProgramFacts.

(* ================================================================= *)
(** * The claims *)

(** ** C1: the capability column *)

(** C1 fails as stated: a row with one capability code, a one-letter
    platform and a single space between them is well formed, yet the
    two-code alternative takes the platform for a second code; the
    platform group then holds the first word of the port id. *)
Lemma one_letter_platform_swallowed :
  row_ok swallowed_row = true
  /\ length (r_caps swallowed_row) = 1
  /\ findall ios_regex ios_regex_groups (render swallowed_row)
     = [[lit "sw2"; lit "Gig 0/3"; lit "130"; lit "R X";
         []; []; []; lit "R X"; []; lit "Gig"; lit "0/2"]]
  /\ findall ios_regex ios_regex_groups (render swallowed_row)
     <> [row_tuple swallowed_row].
Proof. repeat split; try reflexivity. vm_compute. discriminate. Qed.

(** C1 (amended): in a table of well-formed rows, one per line, whose
    capability field has one to five one-letter codes, each row gives one
    tuple in which the capability group is exactly the field (taken by the
    alternative with as many codes as the field and by no other), the
    platform group is the platform token and the last group is the port id
    up to the end of the line -- provided that, in each row, the field is
    full (five codes), or the platform has at least two characters, or the
    white space between the field and the platform is not a single space. *)
Theorem ios_rows_isolated (rows : list row) (tail : str) :
  rows_ok rows = true ->
  forallb (accepts Space) tail = true ->
  stops Dot tail = true ->
  findall ios_regex ios_regex_groups (table rows ++ tail)
  = map row_tuple rows.
Proof. intros. unfold findall. now apply findall_go_table. Qed.

Lemma ios_rows_isolated_witness :
  rows_ok sample_rows = true
  /\ findall ios_regex ios_regex_groups (table sample_rows ++ [nl])
     = [ [lit "lab-7206"; lit "Eth 0"; lit "157"; lit "R";
          []; []; []; []; lit "R"; lit "7206VXR"; lit "Fas 0/0/0"];
         [lit "sw-core.example.com"; lit "Gig 0/1"; lit "120"; lit "R S I";
          []; []; lit "R S I"; []; []; lit "WS-C3750"; lit "Gig 0/2"];
         [lit "edge1"; lit "Ten 1/1"; lit "9"; lit "R S T I r";
          lit "R S T I r"; []; []; []; []; lit "X"; lit "Eth 1/1"] ].
Proof.
  split; [reflexivity|].
  rewrite (ios_rows_isolated sample_rows [nl]); reflexivity.
Defined.

(** ** C8: a device id on a line of its own *)

(** C8: after any number of complete rows, a row whose device id is
    followed by a line break (and indentation) instead of spaces gives the
    same tuples as its one-line form: the grammar reads any white space
    between the device id and the other columns alike. *)
Theorem wrapped_row_same_tuples (rows : list row) (dev w w' tail : str) :
  rows_ok rows = true ->
  token dev = true ->
  gap w = true -> gap w' = true ->
  stops Space tail = true ->
  findall ios_regex ios_regex_groups (lines rows ++ dev ++ w ++ tail)
  = findall ios_regex ios_regex_groups (lines rows ++ dev ++ w' ++ tail).
Proof.
  intros Hrows Hdev Hw Hw' Htail. unfold findall.
  rewrite !findall_go_lines by assumption. f_equal.
  apply findall_go_wrap; auto. now apply token_inv.
Qed.

Lemma wrapped_row_same_tuples_witness :
  let tail := lit "Gig 0/1   120    R S I  WS-C3750  Gig 0/2" ++ [nl] in
  findall ios_regex ios_regex_groups
    (lit "sw-core.example.com" ++ (nl :: lit "        ") ++ tail)
  = findall ios_regex ios_regex_groups
      (lit "sw-core.example.com" ++ lit "  " ++ tail)
  /\ findall ios_regex ios_regex_groups
       (lit "sw-core.example.com" ++ (nl :: lit "        ") ++ tail)
     = [[lit "sw-core.example.com"; lit "Gig 0/1"; lit "120"; lit "R S I";
         []; []; lit "R S I"; []; []; lit "WS-C3750"; lit "Gig 0/2"]].
Proof.
  split; [|reflexivity].
  apply (wrapped_row_same_tuples [] (lit "sw-core.example.com")
           (nl :: lit "        ") (lit "  ")); reflexivity.
Defined.

Section Claims.

Variable World : Type.
Variable Conn : Type.
Variable Node : Type.
Variable requests_post : http_request -> World -> outcome response * World.
Variable getpass : str -> World -> outcome str * World.
Variable ConnectHandler :
  str -> str -> str -> str -> World -> outcome Conn * World.
Variable send_command : Conn -> str -> World -> outcome str * World.
Variable connect_to : str -> World -> outcome Node * World.
Variable enable : Node -> str -> World -> outcome pyval * World.
Variable input : str -> World -> outcome str * World.
Variable read_inventory : str -> World -> outcome (list device) * World.
Variable date_today : World -> outcome str * World.

Local Abbreviation nxos := (nxos_cdp_filter requests_post getpass).
Local Abbreviation ios := (ios_cdp_filter getpass ConnectHandler send_command).
Local Abbreviation ios_body :=
  (ios_cdp_body getpass ConnectHandler send_command).
Local Abbreviation eos := (eos_lldp_filter connect_to enable).
Local Abbreviation eos_body := (eos_lldp_body connect_to enable).
Local Abbreviation step :=
  (main_step requests_post getpass ConnectHandler send_command
             connect_to enable).
Local Abbreviation loop :=
  (main_loop requests_post getpass ConnectHandler send_command
             connect_to enable).
Local Abbreviation run :=
  (main requests_post getpass input ConnectHandler send_command
        connect_to enable read_inventory date_today).
Local Abbreviation ios_text := (ios_fetch getpass ConnectHandler send_command).
Local Abbreviation eos_result := (eos_fetch connect_to enable).

(** The state after the two posts of a successful Structured-A call. *)
Local Abbreviation twice st req w1 w2 :=
  (moved (posted (moved (posted st req) w1) req) w2).

Lemma step_result user pw inv d st inv' st' :
  step user pw inv d st = (Ret inv', st') ->
  inv' = inv \/ exists r, inv' = dict_set inv (hostname d) r.
Proof.
  unfold main_step, bind, ret. intro H.
  destruct (str_eqb (os d) (lit "nxos")).
  { destruct (nxos (ip d) user (Some pw) st) as [[r|e] s1]; [|discriminate].
    injection H as <- <-. eauto. }
  destruct (str_eqb (os d) (lit "ios")).
  { destruct (ios (ip d) user (Some pw) st) as [[r|e] s1]; [|discriminate].
    injection H as <- <-. eauto. }
  destruct (str_eqb (os d) (lit "eos")).
  { destruct (eos (hostname d) st) as [[r|e] s1]; [|discriminate].
    injection H as <- <-. eauto. }
  injection H as <- <-. auto.
Qed.

(** The devices processed later leave the entries of other hostnames. *)
Lemma loop_keeps user pw rest k inv st inv' st' :
  (forall r, In r rest -> hostname r <> k) ->
  loop user pw rest inv st = (Ret inv', st') ->
  dict_get inv' k = dict_get inv k.
Proof.
  revert inv st. induction rest as [|d rest IH]; intros inv st Hk H.
  - cbn in H. unfold ret in H. now injection H as <- <-.
  - rewrite loop_cons in H.
    destruct (step user pw inv d st) as [[inv1|e] st1] eqn:E; [|discriminate].
    rewrite (IH inv1 st1) by (auto; intros r Hr; apply Hk; now right).
    apply step_result in E as [->|(r & ->)]; [reflexivity|].
    apply dict_get_set_other. intro Heq. apply (Hk d); [now left | auto].
Qed.

(** What the loops of the structured extractors return comes entry by
    entry from the entries. *)
Lemma for_append_inv kp ki kd entries acc (st : state World) out st' :
  for_append entries
    (fun neighbor =>
       neighbor_dict (getitem neighbor kp) (getitem neighbor ki)
                     (getitem neighbor kd))
    acc st = (Ret out, st') ->
  exists recs, out = acc ++ recs
               /\ Forall2 (maps_fields kp ki kd) entries recs /\ st' = st.
Proof.
  revert acc. induction entries as [|e entries IH]; intros acc H.
  - cbn in H. unfold ret in H. injection H as <- <-.
    exists []. rewrite app_nil_r. repeat split. constructor.
  - cbn [for_append] in H. unfold bind at 1 in H.
    unfold neighbor_dict, bind, lift, ret in H.
    destruct (getitem e kp) as [a|x] eqn:Ea; [|discriminate].
    destruct (getitem e ki) as [b|x] eqn:Eb; [|discriminate].
    destruct (getitem e kd) as [c|x] eqn:Ec; [|discriminate].
    apply IH in H as (recs & -> & HF & ->).
    exists (neighbor_record a b c :: recs). rewrite <- app_assoc.
    repeat split. constructor; [|assumption]. exists a, b, c. auto.
Qed.

(** ** C2: no header marker *)

(** C2: when the text of an IOS device does not contain "Port ID", the
    extractor prints its diagnostic and returns [None] (no records), and
    the loop of [main] goes on with the next devices, the hostname mapped to
    [None]. *)
Theorem ios_without_marker_skipped user pw d rest inv st text st' :
  os d = lit "ios" ->
  ios_text (ip d) user (Some pw) st = (Ret text, st') ->
  contains (lit "Port ID") text = false ->
  ios (ip d) user (Some pw) st
  = (Ret PNone, say st' (Line (lit "Couldn't login into " ++ ip d)))
  /\ loop user pw (d :: rest) inv st
     = loop user pw rest (dict_set inv (hostname d) PNone)
            (say st' (Line (lit "Couldn't login into " ++ ip d))).
Proof.
  intros Hos Htext Hmark.
  assert (E : ios (ip d) user (Some pw) st
              = (Ret PNone, say st' (Line (lit "Couldn't login into " ++ ip d)))).
  { rewrite ios_filter_spec, ios_body_spec, Htext.
    now rewrite split_without_marker. }
  split; [exact E|].
  now rewrite loop_cons, step_ios, E.
Qed.

(** ** C4: empty tables *)


(** ** C5: the field mapping of the structured extractors *)

(** C5: on a successful structured response whose entries carry the
    three keys, the extractor returns one record per entry, in the order of
    the entries, holding under [neighbor_interface], [local_interface] and
    [neighbor] the entry's values for [port_id], [intf_id], [device_id]
    (Structured-A) and for [neighborPort], [port], [neighborDevice]
    (Structured-B), unchanged. *)
Theorem structured_field_mapping :
  (forall device user pw st r1 w1 r2 w2 doc entries,
      requests_post (nxos_request device user pw) (world st) = (Ret r1, w1) ->
      ok r1 = true ->
      requests_post (nxos_request device user pw) w1 = (Ret r2, w2) ->
      json r2 = Ret doc ->
      getpath doc nxos_path = Ret (PList entries) ->
      Forall (fun e => exists rec,
                  record_of_entry (lit "port_id") (lit "intf_id")
                                  (lit "device_id") e rec) entries ->
      exists recs,
        nxos device user (Some pw) st
        = (Ret (PList recs), twice st (nxos_request device user pw) w1 w2)
        /\ Forall2 (record_of_entry (lit "port_id") (lit "intf_id")
                                    (lit "device_id")) entries recs)
  /\ (forall device st res st' lldp_data entries,
         eos_result device st = (Ret res, st') ->
         getindex res 0 = Ret lldp_data ->
         getpath lldp_data eos_path = Ret (PList entries) ->
         Forall (fun e => exists rec,
                     record_of_entry (lit "neighborPort") (lit "port")
                                     (lit "neighborDevice") e rec) entries ->
         exists recs,
           eos device st = (Ret (PList recs), st')
           /\ Forall2 (record_of_entry (lit "neighborPort") (lit "port")
                                       (lit "neighborDevice")) entries recs).
Proof.
  split.
  - intros device user pw st r1 w1 r2 w2 doc entries H1 Hok H2 Hj Hp HF.
    destruct (entries_records
                (twice st (nxos_request device user pw) w1 w2) HF)
      as (recs & HF2 & E).
    exists recs. split; [|assumption].
    rewrite (nxos_ok _ _ _ _ _ _ H1 Hok H2). rewrite Hj, Hp. exact E.
  - intros device st res st' d0 entries Hr Hi Hp HF.
    destruct (entries_records st' HF) as (recs & HF2 & E).
    exists recs. split; [|assumption].
    rewrite eos_filter_spec, eos_body_spec, Hr, Hi, Hp.
    cbn [py_iter]. now rewrite E.
Qed.

(** ** C6: a response without the success flag *)

(** C6: when the response has its flag unset, the extractor returns
    [None] without raising, having posted once and printed one line that
    holds the status code, the reason and the content of that response.
    The content, a bytes object, is printed as a bytes literal: it can be
    read back from it byte for byte, and plain printable bytes stand in it
    as they are.  The loop of [main] goes on with the next devices. *)
Theorem nxos_failure_reported user pw d rest inv st r w1 :
  os d = lit "nxos" ->
  requests_post (nxos_request (ip d) user pw) (world st) = (Ret r, w1) ->
  ok r = false ->
  exists st',
    nxos (ip d) user (Some pw) st = (Ret PNone, st')
    /\ stdout st'
       = stdout st
           ++ [Line (lit "The request failed! status_code: "
                       ++ Z_to_str (status_code r)
                       ++ [nl] ++ lit "reason: " ++ reason r
                       ++ [nl] ++ lit "content: " ++ bytes_repr (content r))]
    /\ bytes_unrepr (bytes_repr (content r)) = Some (content r)
    /\ (forallb plain_byte (content r) = true ->
        bytes_repr (content r) = "b"%char :: quote1 :: content r ++ [quote1])
    /\ posts st' = posts st ++ [nxos_request (ip d) user pw]
    /\ files st' = files st
    /\ loop user pw (d :: rest) inv st
       = loop user pw rest (dict_set inv (hostname d) PNone) st'.
Proof.
  intros Hos Hpost Hok. eexists.
  split; [eapply nxos_not_ok; eassumption|].
  split; [reflexivity|]. split; [apply bytes_unrepr_repr|].
  split; [apply bytes_repr_plain|]. split; [reflexivity|].
  split; [reflexivity|].
  rewrite loop_cons, step_nxos by assumption.
  erewrite nxos_not_ok by eassumption. reflexivity.
Qed.

(** ** C7: where the fields come from *)

(** C7 (amended): every record the Text-Tabular extractor returns holds
    three strings that are pieces of the text fetched: [neighbor] is a
    non-empty token, [local_interface] is two non-empty tokens joined by one
    space, and [neighbor_interface] is free of newlines -- it may be empty.
    Every record a structured extractor returns holds the three values of
    the entry at the same position, unchanged, whatever they are. *)
Theorem extracted_fields_from_source :
  (forall device user pw st recs st',
      ios device user pw st = (Ret (PList recs), st') ->
      exists text,
        ios_text device user pw st = (Ret text, st')
        /\ forall rec, In rec recs ->
             exists dev a b port,
               rec = neighbor_record (PStr port) (PStr (a ++ sp :: b))
                                     (PStr dev)
               /\ token dev = true /\ token a = true /\ token b = true
               /\ forallb (accepts Dot) port = true
               /\ piece_of dev text /\ piece_of (a ++ sp :: b) text
               /\ piece_of port text)
  /\ (forall device user pw st r1 w1 r2 w2 recs st',
         requests_post (nxos_request device user pw) (world st) = (Ret r1, w1) ->
         ok r1 = true ->
         requests_post (nxos_request device user pw) w1 = (Ret r2, w2) ->
         nxos device user (Some pw) st = (Ret (PList recs), st') ->
         exists doc tbl entries,
           json r2 = Ret doc /\ getpath doc nxos_path = Ret tbl
           /\ py_iter tbl = Ret entries
           /\ Forall2 (maps_fields (lit "port_id") (lit "intf_id")
                                   (lit "device_id")) entries recs)
  /\ (forall device st res st1 recs st',
         eos_result device st = (Ret res, st1) ->
         eos device st = (Ret (PList recs), st') ->
         exists lldp_data tbl entries,
           getindex res 0 = Ret lldp_data
           /\ getpath lldp_data eos_path = Ret tbl
           /\ py_iter tbl = Ret entries
           /\ Forall2 (maps_fields (lit "neighborPort") (lit "port")
                                   (lit "neighborDevice")) entries recs).
Proof.
  repeat split.
  - intros device user pw st recs st' H.
    rewrite ios_filter_spec, ios_body_spec in H.
    destruct (ios_text device user pw st) as [[text|e] st1]; [|discriminate].
    destruct (list_get (py_split text port_id_marker) 1) as [seg|e] eqn:Hseg;
      [|discriminate].
    injection H as <- <-. exists text. split; [reflexivity|].
    intros rec Hrec. apply in_map_iff in Hrec as (t & <- & Ht).
    apply ios_tuple_record in Ht
      as (dev & a & b & port & E & Hd & Ha & Hb & Hp & P1 & P2 & P3).
    apply split_piece in Hseg.
    exists dev, a, b, port.
    repeat split; auto; eapply piece_of_trans; eauto.
  - intros device user pw st r1 w1 r2 w2 recs st' H1 Hok H2 H.
    rewrite (nxos_ok _ _ _ _ _ _ H1 Hok H2) in H.
    destruct (json r2) as [doc|e] eqn:Hj; [|discriminate].
    destruct (getpath doc nxos_path) as [tbl|e] eqn:Hp; [|discriminate].
    destruct (py_iter tbl) as [entries|e] eqn:Hi; [|discriminate].
    unfold bind at 1 in H.
    destruct (for_append entries _ [] _) as [[out|e] s1] eqn:E; [|discriminate].
    unfold ret in H. injection H as <- <-.
    apply for_append_inv in E as (recs & -> & HF & _).
    exists doc, tbl, entries. repeat split; auto.
  - intros device st res st1 recs st' Hr H.
    rewrite eos_filter_spec, eos_body_spec, Hr in H.
    destruct (getindex res 0) as [d0|e] eqn:Hg; [|discriminate].
    destruct (getpath d0 eos_path) as [tbl|e] eqn:Hp; [|discriminate].
    destruct (py_iter tbl) as [entries|e] eqn:Hi; [|discriminate].
    unfold bind at 1 in H.
    destruct (for_append entries _ [] _) as [[out|e] s1] eqn:E; [|discriminate].
    unfold ret in H. injection H as <- <-.
    apply for_append_inv in E as (recs & -> & HF & _).
    exists d0, tbl, entries. repeat split; auto.
Qed.

(** ** C3 and C9: what Structured-A does on a success flag *)

(** On a success flag the extractor has posted twice when it ends,
    however it ends. *)
Lemma nxos_posts_twice device user pw st r1 w1 :
  requests_post (nxos_request device user pw) (world st) = (Ret r1, w1) ->
  ok r1 = true ->
  posts (snd (nxos device user (Some pw) st))
  = posts st ++ [nxos_request device user pw; nxos_request device user pw].
Proof.
  intros H1 Hok.
  destruct (requests_post (nxos_request device user pw) w1) as [o2 w2] eqn:H2.
  rewrite (nxos_ok _ _ _ _ _ _ H1 Hok H2).
  assert (P : posts (twice st (nxos_request device user pw) w1 w2)
              = posts st ++ [nxos_request device user pw;
                             nxos_request device user pw])
    by (cbn; now rewrite <- app_assoc).
  destruct o2 as [r2|e]; [|exact P].
  destruct (json r2) as [doc|e]; [|exact P].
  destruct (getpath doc nxos_path) as [tbl|e]; [|exact P].
  destruct (py_iter tbl) as [entries|e]; [|exact P].
  unfold bind at 1.
  destruct (for_append entries _ [] _) as [[out|e] s1] eqn:E.
  - apply for_append_inv in E as (recs & -> & _ & ->). exact P.
  - assert (s1 = twice st (nxos_request device user pw) w1 w2); [|now subst].
    clear P. revert E. generalize (@nil pyval).
    generalize (twice st (nxos_request device user pw) w1 w2).
    induction entries as [|x entries IH]; intros s0 acc E.
    + discriminate.
    + cbn [for_append] in E. unfold bind at 1 in E.
      unfold neighbor_dict, bind, lift, ret in E.
      destruct (getitem x (lit "port_id")); [|now injection E].
      destruct (getitem x (lit "intf_id")); [|now injection E].
      destruct (getitem x (lit "device_id")); [|now injection E].
      eauto.
Qed.

(** A document without the nested path makes the extractor raise, and
    the loop of [main] with it: the devices after this one are not
    processed. *)
Lemma nxos_missing_path_raises user pw d rest inv st r1 w1 r2 w2 doc e :
  os d = lit "nxos" ->
  requests_post (nxos_request (ip d) user pw) (world st) = (Ret r1, w1) ->
  ok r1 = true ->
  requests_post (nxos_request (ip d) user pw) w1 = (Ret r2, w2) ->
  json r2 = Ret doc ->
  getpath doc nxos_path = Raise e ->
  nxos (ip d) user (Some pw) st
  = (Raise e, twice st (nxos_request (ip d) user pw) w1 w2)
  /\ loop user pw (d :: rest) inv st
     = (Raise e, twice st (nxos_request (ip d) user pw) w1 w2).
Proof.
  intros Hos H1 Hok H2 Hj Hp.
  assert (E : nxos (ip d) user (Some pw) st
              = (Raise e, twice st (nxos_request (ip d) user pw) w1 w2)).
  { rewrite (nxos_ok _ _ _ _ _ _ H1 Hok H2). now rewrite Hj, Hp. }
  split; [exact E|]. now rewrite loop_cons, step_nxos, E.
Qed.

(** ** C10: a failed device in the mapping *)

(** When the loop of [main] ends, the mapping is printed and written as
    JSON to the file of the day. *)
Lemma main_writes_mapping st user w1 pw w2 inventory w3 inv st4 date w5 :
  input (lit "What is your username: ") (world st) = (Ret user, w1) ->
  getpass (lit "What is your password: ") w1 = (Ret pw, w2) ->
  read_inventory (lit "inventory.csv") w2 = (Ret inventory, w3) ->
  loop user pw inventory [] (moved st w3) = (Ret inv, st4) ->
  date_today (world st4) = (Ret date, w5) ->
  run st
  = (Ret PNone,
     filed (moved (say st4 (Pretty (PDict inv))) w5)
           (lit "neighbors_" ++ date ++ lit ".json")
           (json_dumps (PDict inv))).
Proof.
  intros Hin Hpw Hinv Hloop Hdate.
  unfold main, bind, external, pprint, write_file, ret.
  rewrite Hin. cbn [world moved]. rewrite Hpw. cbn [world moved].
  rewrite Hinv.
  change (moved (moved (moved st w1) w2) w3) with (moved st w3).
  rewrite Hloop. cbn [world say]. now rewrite Hdate.
Qed.


End Claims.

(* ================================================================= *)
(** ** The claims on sample devices *)

Import Script Samples.

Lemma ios_without_marker_skipped_witness :
  contains (lit "Port ID")
           (lit "% Invalid input detected at '^' marker." ++ [nl]) = false
  /\ ios (ip i1) admin (Some secret) (start w_no_marker)
     = (Ret PNone,
        say (start w_no_marker) (Line (lit "Couldn't login into 10.0.0.2")))
  /\ loop admin secret [i1; e1] [] (start w_no_marker)
     = loop admin secret [e1] [(lit "i1", PNone)]
            (say (start w_no_marker)
                 (Line (lit "Couldn't login into 10.0.0.2"))).
Proof.
  split; [reflexivity|].
  apply (@ios_without_marker_skipped script unit unit requests_post getpass
           ConnectHandler send_command connect_to enable admin secret i1
           [e1] [] (start w_no_marker)
           (lit "% Invalid input detected at '^' marker." ++ [nl])
           (start w_no_marker));
    reflexivity.
Defined.

(** C3 fails on the code: a Nexus whose response carries the success flag
    but no table makes [main] raise [KeyError]; nothing is printed, no file
    is written, and the IOS device after it is never asked -- although it
    would have given a record. *)
Lemma nxos_missing_table_aborts_run :
  fst (run_main (start w_no_table))
  = Raise (KeyError (PStr (lit "TABLE_cdp_neighbor_brief_info")))
  /\ stdout (snd (run_main (start w_no_table))) = []
  /\ files (snd (run_main (start w_no_table))) = []
  /\ fst (ios (ip i1) admin (Some secret) (start w_no_table))
     = Ret (PList [neighbor_record (PStr (lit "Eth 1/1"))
                                   (PStr (lit "Gig 0/3"))
                                   (PStr (lit "sw2"))]).
Proof. repeat split; vm_compute; reflexivity. Qed.



Lemma structured_field_mapping_witness :
  (exists recs,
      nxos (ip n1) admin (Some secret) (start w_two)
      = (Ret (PList recs),
         snd (nxos (ip n1) admin (Some secret) (start w_two)))
      /\ Forall2 (record_of_entry (lit "port_id") (lit "intf_id")
                                  (lit "device_id"))
                 [entry_a "Ethernet1/1" "mgmt0" "core1";
                  entry_a "Ethernet1/2" "Ethernet1/49" "core2"] recs)
  /\ (exists recs,
         eos (hostname e1) (start w_two) = (Ret (PList recs), start w_two)
         /\ Forall2 (record_of_entry (lit "neighborPort") (lit "port")
                                     (lit "neighborDevice"))
                    [entry_b "Ethernet1" "Ethernet2" "leaf1";
                     entry_b "Ethernet3" "Ethernet4" "leaf2"] recs).
Proof.
  destruct (@structured_field_mapping script unit requests_post getpass
              connect_to enable) as (A & B).
  split.
  - apply (A (ip n1) admin secret (start w_two)
             (http_ok (nxos_doc (PList [entry_a "Ethernet1/1" "mgmt0" "core1";
                                        entry_a "Ethernet1/2" "Ethernet1/49" "core2"])))
             _
             (http_ok (nxos_doc (PList [entry_a "Ethernet1/1" "mgmt0" "core1";
                                        entry_a "Ethernet1/2" "Ethernet1/49" "core2"])))
             _
             (nxos_doc (PList [entry_a "Ethernet1/1" "mgmt0" "core1";
                               entry_a "Ethernet1/2" "Ethernet1/49" "core2"])));
      try reflexivity.
    repeat constructor; eexists; do 3 eexists; repeat split; reflexivity.
  - apply (B (hostname e1) (start w_two)
             (eos_doc [entry_b "Ethernet1" "Ethernet2" "leaf1";
                       entry_b "Ethernet3" "Ethernet4" "leaf2"])
             (start w_two)
             (PDict [(lit "result",
                      PDict [(lit "lldpNeighbors",
                              PList [entry_b "Ethernet1" "Ethernet2" "leaf1";
                                     entry_b "Ethernet3" "Ethernet4" "leaf2"])])]));
      try reflexivity.
    repeat constructor; eexists; do 3 eexists; repeat split; reflexivity.
Defined.

Lemma nxos_failure_reported_witness :
  exists st',
    nxos (ip n1) admin (Some secret) (start w_refused) = (Ret PNone, st')
    /\ stdout st'
       = [Line (lit "The request failed! status_code: 401" ++ [nl]
                  ++ lit "reason: Unauthorized" ++ [nl]
                  ++ lit "content: b'Authentication failure'")]
    /\ posts st' = [nxos_request (ip n1) admin secret]
    /\ files st' = [].
Proof.
  destruct (@nxos_failure_reported script unit unit requests_post getpass
              ConnectHandler send_command connect_to enable
              admin secret n1 [] [] (start w_refused) http_unauthorized
              {| nx_answers := []; ios_answer := Raise unreachable;
                 eos_answer := Raise unreachable; inventory_rows := [n1] |}
              eq_refl eq_refl eq_refl)
    as (st' & E & Hout & _ & _ & Hposts & Hfiles & _).
  exists st'. repeat split; assumption.
Defined.

(** C7 fails as stated: a row whose port id column is blank still matches
    (the white space before the last group reaches over the end of the
    line), and the record has the empty string as [neighbor_interface]. *)
Lemma blank_port_gives_empty_field :
  ios (ip i1) admin (Some secret) (start w_blank_port)
  = (Ret (PList [neighbor_record (PStr []) (PStr (lit "Gig 0/3"))
                                 (PStr (lit "sw2"))]),
     start w_blank_port).
Proof. vm_compute. reflexivity. Qed.

Lemma extracted_fields_from_source_witness :
  ios (ip i1) admin (Some secret) (start w_table)
  = (Ret (PList [neighbor_record (PStr (lit "Fas 0/0/0")) (PStr (lit "Eth 0"))
                                 (PStr (lit "lab-7206"));
                 neighbor_record (PStr (lit "Gig 0/2")) (PStr (lit "Gig 0/1"))
                                 (PStr (lit "sw-core.example.com"))]),
     start w_table)
  /\ exists text,
      ios_fetch getpass ConnectHandler send_command (ip i1) admin
                (Some secret) (start w_table)
      = (Ret text, start w_table)
      /\ forall rec,
          In rec [neighbor_record (PStr (lit "Fas 0/0/0")) (PStr (lit "Eth 0"))
                                  (PStr (lit "lab-7206"));
                  neighbor_record (PStr (lit "Gig 0/2")) (PStr (lit "Gig 0/1"))
                                  (PStr (lit "sw-core.example.com"))] ->
          exists dev a b port,
            rec = neighbor_record (PStr port) (PStr (a ++ sp :: b)) (PStr dev)
            /\ token dev = true /\ token a = true /\ token b = true
            /\ forallb (accepts Dot) port = true
            /\ piece_of dev text /\ piece_of (a ++ sp :: b) text
            /\ piece_of port text.
Proof.
  split; [reflexivity|].
  apply (proj1 (@extracted_fields_from_source script unit unit requests_post
                  getpass ConnectHandler send_command connect_to enable)
               (ip i1) admin (Some secret) (start w_table)).
  reflexivity.
Defined.

(** C9 fails on the code: for a Nexus that answers with the success flag,
    one call of the extractor posts the same request twice; the records come
    from the second response. *)
Lemma nxos_success_posts_twice :
  posts (snd (nxos (ip n1) admin (Some secret) (start w_two)))
  = [nxos_request (ip n1) admin secret; nxos_request (ip n1) admin secret]
  /\ nx_answers (world (snd (nxos (ip n1) admin (Some secret) (start w_two))))
     = [].
Proof. split; vm_compute; reflexivity. Qed.


(* ================================================================= *)
(** * Beyond the claims *)

Section Extras.

Variable World : Type.
Variable Conn : Type.
Variable Node : Type.
Variable requests_post : http_request -> World -> outcome response * World.
Variable getpass : str -> World -> outcome str * World.
Variable ConnectHandler :
  str -> str -> str -> str -> World -> outcome Conn * World.
Variable send_command : Conn -> str -> World -> outcome str * World.
Variable connect_to : str -> World -> outcome Node * World.
Variable enable : Node -> str -> World -> outcome pyval * World.
Variable input : str -> World -> outcome str * World.
Variable read_inventory : str -> World -> outcome (list device) * World.
Variable date_today : World -> outcome str * World.

Local Abbreviation nxos := (nxos_cdp_filter requests_post getpass).
Local Abbreviation ios := (ios_cdp_filter getpass ConnectHandler send_command).
Local Abbreviation ios_body :=
  (ios_cdp_body getpass ConnectHandler send_command).
Local Abbreviation eos := (eos_lldp_filter connect_to enable).
Local Abbreviation eos_body := (eos_lldp_body connect_to enable).
Local Abbreviation step :=
  (main_step requests_post getpass ConnectHandler send_command
             connect_to enable).
Local Abbreviation loop :=
  (main_loop requests_post getpass ConnectHandler send_command
             connect_to enable).
Local Abbreviation run :=
  (main requests_post getpass input ConnectHandler send_command
        connect_to enable read_inventory date_today).
Local Abbreviation ios_text := (ios_fetch getpass ConnectHandler send_command).
Local Abbreviation eos_result := (eos_fetch connect_to enable).
Local Abbreviation twice st req w1 w2 :=
  (moved (posted (moved (posted st req) w1) req) w2).

(** *** What the collaborators leave untouched *)

Lemma same_log_refl (st : state World) : same_log st st.
Proof. repeat split. Qed.

Lemma same_log_trans (a b c : state World) :
  same_log a b -> same_log b c -> same_log a c.
Proof.
  intros (H1 & H2 & H3) (K1 & K2 & K3). repeat split; congruence.
Qed.

Lemma external_frame {A} (f : World -> outcome A * World) st o st' :
  external f st = (o, st') -> same_log st st'.
Proof.
  unfold external. destruct (f (world st)) as [o' w].
  intros [= <- <-]. repeat split.
Qed.

Lemma ios_fetch_frame device user pw st o st' :
  ios_text device user pw st = (o, st') -> same_log st st'.
Proof.
  unfold ios_fetch, IosSwitch_init, ios_cdp, bind, ret. intro H.
  assert (F : forall s0 p o1 s1,
             (let (o2, s2) :=
                external (ConnectHandler (lit "cisco_ios") device user p) s0 in
              match o2 with
              | Ret connection =>
                  match external (send_command connection
                                    (lit "terminal length 0")) s2 with
                  | (Ret _, s3) =>
                      external (send_command connection
                                  (lit "show cdp neighbor")) s3
                  | (Raise e, s3) => (Raise e, s3)
                  end
              | Raise e => (Raise e, s2)
              end) = (o1, s1) -> same_log s0 s1).
  { intros s0 p o1 s1 E.
    destruct (external (ConnectHandler (lit "cisco_ios") device user p) s0)
      as [[c|e] s2] eqn:E1.
    - apply external_frame in E1.
      destruct (external (send_command c (lit "terminal length 0")) s2)
        as [[x|e] s3] eqn:E2.
      + apply external_frame in E2. apply external_frame in E.
        eauto using same_log_trans.
      + apply external_frame in E2. injection E as <- <-.
        eauto using same_log_trans.
    - apply external_frame in E1. now injection E as <- <-. }
  destruct pw as [p|].
  - eapply F. exact H.
  - destruct (external (getpass (lit "What is your password: ")) st)
      as [[p|e] s0] eqn:E0.
    + apply external_frame in E0. apply F in H.
      eauto using same_log_trans.
    + apply external_frame in E0. now injection H as <- <-.
Qed.

Lemma eos_fetch_frame device st o st' :
  eos_result device st = (o, st') -> same_log st st'.
Proof.
  unfold eos_fetch, eos_connect, eos_lldp_neighbors, bind. intro H.
  destruct (external (connect_to (eos_host {| eos_host := device |})) st)
    as [[c|e] s1] eqn:E1.
  - apply external_frame in E1. apply external_frame in H.
    eauto using same_log_trans.
  - apply external_frame in E1. now injection H as <- <-.
Qed.

(** The loops of the extractors have no effect. *)
Lemma for_append_same (f1 f2 f3 : pyval -> outcome pyval) entries acc
      (st : state World) :
  snd (for_append entries
         (fun neighbor => neighbor_dict (f1 neighbor) (f2 neighbor)
                                        (f3 neighbor)) acc st) = st.
Proof.
  revert acc. induction entries as [|e entries IH]; intro acc; [reflexivity|].
  cbn [for_append]. unfold bind at 1.
  unfold neighbor_dict, bind, lift, ret.
  destruct (f1 e); [|reflexivity].
  destruct (f2 e); [|reflexivity].
  destruct (f3 e); [|reflexivity].
  apply IH.
Qed.

(** *** Text-Tabular, on every input *)

Lemma ios_outcome device user pw st :
  exists v st',
    ios device user pw st = (Ret v, st')
    /\ posts st' = posts st /\ files st' = files st
    /\ ((v = PNone
         /\ stdout st'
            = stdout st ++ [Line (lit "Couldn't login into " ++ device)])
        \/ (exists recs, v = PList recs /\ stdout st' = stdout st)).
Proof.
  rewrite ios_cases.
  destruct (ios_text device user pw st) as [[text|e] st1] eqn:E;
    apply ios_fetch_frame in E; destruct E as (E1 & E2 & E3).
  - destruct (contains port_id_marker text).
    + do 2 eexists. split; [reflexivity|]. repeat split; auto.
      right. eauto.
    + do 2 eexists. split; [reflexivity|]. cbn. repeat split; auto.
      left. rewrite E1. auto.
  - do 2 eexists. split; [reflexivity|]. cbn. repeat split; auto.
    left. rewrite E1. auto.
Qed.

(** *** Structured-B, case by case *)

Lemma body_loop_cases (f1 f2 f3 : pyval -> outcome pyval) entries
      (st : state World) :
  (exists recs,
      bind (for_append entries
              (fun neighbor => neighbor_dict (f1 neighbor) (f2 neighbor)
                                             (f3 neighbor)) [])
           (fun all_neighbors => ret (PList all_neighbors)) st
      = (Ret (PList recs), st))
  \/ (exists e,
         bind (for_append entries
                 (fun neighbor => neighbor_dict (f1 neighbor) (f2 neighbor)
                                                (f3 neighbor)) [])
              (fun all_neighbors => ret (PList all_neighbors)) st
         = (Raise e, st)).
Proof.
  unfold bind, ret.
  pose proof (for_append_same f1 f2 f3 entries [] st) as S.
  destruct (for_append entries _ [] st) as [[recs|e] s1]; cbn in S; subst s1.
  - left. now exists recs.
  - right. now exists e.
Qed.

Lemma eos_outcome device st :
  exists v st',
    eos device st = (Ret v, st')
    /\ posts st' = posts st /\ files st' = files st
    /\ ((v = PNone
         /\ stdout st'
            = stdout st ++ [Line (lit "Couldn't login into: " ++ device)])
        \/ (exists recs, v = PList recs /\ stdout st' = stdout st)).
Proof.
  rewrite eos_filter_spec, eos_body_spec.
  assert (N : forall st1, same_log st st1 ->
              exists v st',
                (Ret PNone,
                 say st1 (Line (lit "Couldn't login into: " ++ device)))
                = (Ret v, st')
                /\ posts st' = posts st /\ files st' = files st
                /\ ((v = PNone
                     /\ stdout st'
                        = stdout st
                            ++ [Line (lit "Couldn't login into: " ++ device)])
                    \/ (exists recs, v = PList recs /\ stdout st' = stdout st))).
  { intros st1 (E1 & E2 & E3). do 2 eexists. split; [reflexivity|].
    cbn. repeat split; auto. left. rewrite E1. auto. }
  destruct (eos_result device st) as [[res|e] st1] eqn:E;
    apply eos_fetch_frame in E; [|now apply N].
  destruct (getindex res 0) as [d0|e]; [|now apply N].
  destruct (getpath d0 eos_path) as [tbl|e]; [|now apply N].
  destruct (py_iter tbl) as [entries|e]; [|now apply N].
  destruct (body_loop_cases
              (fun n => getitem n (lit "neighborPort"))
              (fun n => getitem n (lit "port"))
              (fun n => getitem n (lit "neighborDevice")) entries st1)
    as [(recs & ->)|(e & ->)]; [|now apply N].
  destruct E as (E1 & E2 & E3).
  do 2 eexists. split; [reflexivity|]. repeat split; auto. right. eauto.
Qed.

(** *** Structured-A, case by case *)

Lemma nxos_first_error device user pw st e w1 :
  requests_post (nxos_request device user pw) (world st) = (Raise e, w1) ->
  nxos device user (Some pw) st
  = (Raise e, moved (posted st (nxos_request device user pw)) w1).
Proof.
  intro Hpost.
  unfold nxos_cdp_filter, NxSwitch_init, nx_cdp, bind, ret, log_post,
    external.
  cbn [world posted]. fold (nxos_request device user pw).
  now rewrite Hpost.
Qed.

Lemma for_append_error kp ki kd good e rest acc (st : state World) x :
  Forall (fun g => entry_error kp ki kd g = None) good ->
  entry_error kp ki kd e = Some x ->
  for_append (good ++ e :: rest)
    (fun neighbor =>
       neighbor_dict (getitem neighbor kp) (getitem neighbor ki)
                     (getitem neighbor kd))
    acc st = (Raise x, st).
Proof.
  intros Hgood He. revert acc.
  induction Hgood as [|g good Hg _ IH]; intro acc.
  - cbn [app for_append]. unfold bind at 1.
    unfold neighbor_dict, bind, lift, ret. unfold entry_error in He.
    destruct (getitem e kp); [|now injection He as ->].
    destruct (getitem e ki); [|now injection He as ->].
    destruct (getitem e kd); [discriminate | now injection He as ->].
  - cbn [app for_append]. unfold bind at 1.
    unfold neighbor_dict, bind, lift, ret. unfold entry_error in Hg.
    destruct (getitem g kp); [|discriminate].
    destruct (getitem g ki); [|discriminate].
    destruct (getitem g kd); [|discriminate].
    apply IH.
Qed.

Lemma nxos_outcome device user pw st :
  files (snd (nxos device user (Some pw) st)) = files st
  /\ (posts (snd (nxos device user (Some pw) st))
      = posts st ++ [nxos_request device user pw]
      \/ posts (snd (nxos device user (Some pw) st))
         = posts st ++ [nxos_request device user pw;
                        nxos_request device user pw])
  /\ (stdout (snd (nxos device user (Some pw) st)) = stdout st
      \/ (fst (nxos device user (Some pw) st) = Ret PNone
          /\ exists r w1,
              requests_post (nxos_request device user pw) (world st)
              = (Ret r, w1)
              /\ ok r = false
              /\ stdout (snd (nxos device user (Some pw) st))
                 = stdout st ++ [Line (nxos_failed_message r)])).
Proof.
  destruct (requests_post (nxos_request device user pw) (world st))
    as [[r1|e] w1] eqn:H1.
  - destruct (ok r1) eqn:Hok.
    + destruct (requests_post (nxos_request device user pw) w1)
        as [o2 w2] eqn:H2.
      rewrite (nxos_ok _ _ _ _ _ _ H1 Hok H2).
      assert (P : forall o,
                 files (snd (o, twice st (nxos_request device user pw) w1 w2))
                 = files st
                 /\ (posts (snd (o, twice st (nxos_request device user pw) w1 w2))
                     = posts st ++ [nxos_request device user pw]
                     \/ posts (snd (o, twice st (nxos_request device user pw) w1 w2))
                        = posts st ++ [nxos_request device user pw;
                                       nxos_request device user pw])
                 /\ (stdout (snd (o, twice st (nxos_request device user pw) w1 w2))
                     = stdout st
                     \/ (fst (o, twice st (nxos_request device user pw) w1 w2)
                         = Ret PNone
                         /\ exists r w,
                             (Ret r1, w1) = (Ret r, w)
                             /\ ok r = false
                             /\ stdout (snd (o, twice st (nxos_request device user pw) w1 w2))
                                = stdout st ++ [Line (nxos_failed_message r)]))).
      { intro o. cbn. repeat split; auto. right. now rewrite <- app_assoc. }
      destruct o2 as [r2|e]; [|apply (P (Raise e))].
      destruct (json r2) as [doc|e]; [|apply (P (Raise e))].
      destruct (getpath doc nxos_path) as [tbl|e]; [|apply (P (Raise e))].
      destruct (py_iter tbl) as [entries|e]; [|apply (P (Raise e))].
      destruct (body_loop_cases
                  (fun n => getitem n (lit "port_id"))
                  (fun n => getitem n (lit "intf_id"))
                  (fun n => getitem n (lit "device_id")) entries
                  (twice st (nxos_request device user pw) w1 w2))
        as [(recs & ->)|(e & ->)]; apply P.
    + erewrite nxos_not_ok by eassumption. cbn. repeat split; auto.
      right. split; [reflexivity|]. exists r1, w1. auto.
  - erewrite nxos_first_error by eassumption. cbn. repeat split; auto.
Qed.

(** *** The loop of [main], row by row *)

Lemma dict_set_keys (d : list (str * pyval)) k v :
  map fst (dict_set d k v) = add_key (map fst d) k.
Proof.
  unfold add_key. induction d as [|[k' v'] d IH]; [reflexivity|].
  cbn [dict_set map fst existsb].
  destruct (str_eqb k k') eqn:E; cbn [orb map fst]; [reflexivity|].
  rewrite IH. now destruct (existsb (str_eqb k) (map fst d)).
Qed.

Lemma step_unknown user pw inv d st :
  recognized d = false -> step user pw inv d st = (Ret inv, st).
Proof.
  unfold recognized, main_step. intro H.
  apply orb_false_iff in H as [H H3]. apply orb_false_iff in H as [H1 H2].
  now rewrite H1, H2, H3.
Qed.

Lemma step_known user pw inv d st inv' st' :
  recognized d = true ->
  step user pw inv d st = (Ret inv', st') ->
  exists r, inv' = dict_set inv (hostname d) r.
Proof.
  unfold recognized, main_step, bind, ret. intros R H.
  destruct (str_eqb (os d) (lit "nxos")).
  { destruct (nxos (ip d) user (Some pw) st) as [[r|e] s1]; [|discriminate].
    injection H as <- <-. eauto. }
  destruct (str_eqb (os d) (lit "ios")).
  { destruct (ios (ip d) user (Some pw) st) as [[r|e] s1]; [|discriminate].
    injection H as <- <-. eauto. }
  destruct (str_eqb (os d) (lit "eos")); [|discriminate].
  destruct (eos (hostname d) st) as [[r|e] s1]; [|discriminate].
  injection H as <- <-. eauto.
Qed.

Lemma loop_keys user pw inventory inv st inv' st' :
  loop user pw inventory inv st = (Ret inv', st') ->
  map fst inv'
  = fold_left add_key (map hostname (filter recognized inventory))
              (map fst inv).
Proof.
  revert inv st. induction inventory as [|d rest IH]; intros inv st H.
  - cbn in H. unfold ret in H. now injection H as <- <-.
  - rewrite loop_cons in H.
    destruct (step user pw inv d st) as [[inv1|e] st1] eqn:E; [|discriminate].
    apply IH in H. rewrite H. cbn [filter].
    destruct (recognized d) eqn:R.
    + apply (step_known _ _ _ _ _ R) in E as (r & ->).
      cbn [map fold_left]. now rewrite dict_set_keys.
    + rewrite (step_unknown _ _ _ _ _ R) in E. now injection E as <- <-.
Qed.

Lemma step_frame user pw inv d st :
  files (snd (step user pw inv d st)) = files st.
Proof.
  unfold main_step, bind, ret.
  destruct (str_eqb (os d) (lit "nxos")).
  { pose proof (nxos_outcome (ip d) user pw st) as (F & _).
    now destruct (nxos (ip d) user (Some pw) st) as [[r|e] s1]. }
  destruct (str_eqb (os d) (lit "ios")).
  { destruct (ios_outcome (ip d) user (Some pw) st)
      as (v & s1 & -> & _ & F & _). exact F. }
  destruct (str_eqb (os d) (lit "eos")); [|reflexivity].
  destruct (eos_outcome (hostname d) st) as (v & s1 & -> & _ & F & _).
  exact F.
Qed.

Lemma loop_frame user pw inventory inv st :
  files (snd (loop user pw inventory inv st)) = files st.
Proof.
  revert inv st. induction inventory as [|d rest IH]; intros inv st.
  - reflexivity.
  - rewrite loop_cons. pose proof (step_frame user pw inv d st) as F.
    destruct (step user pw inv d st) as [[inv1|e] st1]; cbn in F.
    + now rewrite IH.
    + exact F.
Qed.

Lemma step_quiet user pw inv d st :
  str_eqb (os d) (lit "nxos") = false ->
  exists inv1 st1,
    step user pw inv d st = (Ret inv1, st1)
    /\ posts st1 = posts st /\ files st1 = files st.
Proof.
  intro N. unfold main_step, bind, ret. rewrite N.
  destruct (str_eqb (os d) (lit "ios")).
  { destruct (ios_outcome (ip d) user (Some pw) st)
      as (v & s1 & -> & P & F & _). eauto. }
  destruct (str_eqb (os d) (lit "eos")); [|eauto].
  destruct (eos_outcome (hostname d) st) as (v & s1 & -> & P & F & _).
  eauto.
Qed.

Lemma loop_quiet user pw inventory inv st :
  forallb (fun d => negb (str_eqb (os d) (lit "nxos"))) inventory = true ->
  exists inv' st',
    loop user pw inventory inv st = (Ret inv', st')
    /\ posts st' = posts st /\ files st' = files st.
Proof.
  revert inv st. induction inventory as [|d rest IH]; intros inv st H.
  - exists inv, st. auto.
  - cbn [forallb] in H. apply andb_true_iff in H as [N H].
    apply negb_true_iff in N.
    destruct (step_quiet user pw inv d st N) as (inv1 & st1 & E & P & F).
    destruct (IH inv1 st1 H) as (inv' & st' & E' & P' & F').
    exists inv', st'. rewrite loop_cons, E. repeat split; congruence.
Qed.

Lemma loop_app user pw a b inv st :
  loop user pw (a ++ b) inv st
  = match loop user pw a inv st with
    | (Ret inv1, st1) => loop user pw b inv1 st1
    | (Raise e, st1) => (Raise e, st1)
    end.
Proof.
  revert inv st. induction a as [|d a IH]; intros inv st; [reflexivity|].
  cbn [app]. rewrite !loop_cons.
  destruct (step user pw inv d st) as [[inv1|e] st1]; [apply IH | reflexivity].
Qed.

Lemma entry_error_kind kp ki kd e x :
  entry_error kp ki kd e = Some x ->
  x = TypeError \/ exists k, In k [kp; ki; kd] /\ x = KeyError (PStr k).
Proof.
  unfold entry_error, getitem. destruct e; try (intro H; injection H; auto).
  destruct (dict_get d kp).
  2:{ intro H. injection H as <-. right. exists kp. cbn. auto. }
  destruct (dict_get d ki).
  2:{ intro H. injection H as <-. right. exists ki. cbn. auto. }
  destruct (dict_get d kd); [discriminate|].
  intro H. injection H as <-. right. exists kd. cbn. auto.
Qed.

Lemma entry_error_none kp ki kd e :
  (exists rec, maps_fields kp ki kd e rec) <-> entry_error kp ki kd e = None.
Proof.
  unfold maps_fields, entry_error. split.
  - intros (rec & a & b & c & -> & -> & -> & _). reflexivity.
  - intro H.
    destruct (getitem e kp) as [a|]; [|discriminate].
    destruct (getitem e ki) as [b|]; [|discriminate].
    destruct (getitem e kd) as [c|]; [|discriminate].
    exists (neighbor_record a b c), a, b, c. auto.
Qed.

Lemma body_loop_error kp ki kd good e rest x (st : state World) :
  Forall (fun g => entry_error kp ki kd g = None) good ->
  entry_error kp ki kd e = Some x ->
  bind (for_append (good ++ e :: rest)
          (fun neighbor =>
             neighbor_dict (getitem neighbor kp) (getitem neighbor ki)
                           (getitem neighbor kd)) [])
       (fun all_neighbors => ret (PList all_neighbors)) st
  = (Raise x, st).
Proof.
  intros Hg He. unfold bind. now erewrite for_append_error by eassumption.
Qed.

Lemma body_loop_bad kp ki kd entries e x (st : state World) :
  In e entries -> entry_error kp ki kd e = Some x ->
  exists y,
    bind (for_append entries
            (fun neighbor =>
               neighbor_dict (getitem neighbor kp) (getitem neighbor ki)
                             (getitem neighbor kd)) [])
         (fun all_neighbors => ret (PList all_neighbors)) st
    = (Raise y, st).
Proof.
  intros Hin He. unfold bind, ret.
  pose proof (for_append_same (fun n => getitem n kp) (fun n => getitem n ki)
                              (fun n => getitem n kd) entries [] st) as S.
  destruct (for_append entries _ [] st) as [[recs|y] s1] eqn:E; cbn in S;
    subst s1; [|eauto].
  apply for_append_inv in E as (recs' & _ & HF & _).
  exfalso. clear - Hin He HF.
  induction HF as [|a r entries recs' Ha _ IH]; [contradiction|].
  destruct Hin as [->|Hin]; [|auto].
  assert (N : entry_error kp ki kd e = None)
    by (apply entry_error_none; eauto).
  congruence.
Qed.

(** The entries a table that is no list gives to the loop make the first
    subscript fail. *)
Lemma odd_table_error kp ki kd tbl (st : state World) :
  (forall l, tbl <> PList l) -> tbl <> PDict [] -> tbl <> PStr [] ->
  match py_iter tbl with
  | Raise e => e = TypeError
  | Ret entries =>
      bind (for_append entries
              (fun neighbor =>
                 neighbor_dict (getitem neighbor kp) (getitem neighbor ki)
                               (getitem neighbor kd)) [])
           (fun all_neighbors => ret (PList all_neighbors)) st
      = (Raise TypeError, st)
  end.
Proof.
  intros HL HD HS.
  destruct tbl as [| b | z | s | l | d]; try reflexivity.
  - destruct s as [|c s]; [congruence|].
    cbn [py_iter map].
    apply (@body_loop_error kp ki kd [] (PStr [c]) _ TypeError st);
      [constructor | reflexivity].
  - now destruct (HL l).
  - destruct d as [|kv d]; [congruence|].
    cbn [py_iter map].
    apply (@body_loop_error kp ki kd [] (PStr (fst kv)) _ TypeError st);
      [constructor | reflexivity].
Qed.





(** ** The extractors on every input *)

(** X1: the Text-Tabular extractor by cases.  It gives [None] and its
    diagnostic exactly when fetching the text raises or the text has no
    header marker; otherwise it returns the records of the matches found
    between the first marker and the next one, and prints nothing. *)
Theorem ios_filter_by_cases device user pw st :
  ios device user pw st
  = match ios_text device user pw st with
    | (Raise _, st') =>
        (Ret PNone, say st' (Line (lit "Couldn't login into " ++ device)))
    | (Ret text, st') =>
        if contains port_id_marker text
        then (Ret (PList (map tuple_record
                            (findall ios_regex ios_regex_groups
                               (nth 1 (py_split text port_id_marker) [])))),
              st')
        else (Ret PNone,
              say st' (Line (lit "Couldn't login into " ++ device)))
    end.
Proof. apply ios_cases. Qed.

(** X2: the Text-Tabular extractor never raises, sends no HTTP request
    and writes no file; it returns [None] with exactly one diagnostic
    line added to the output, or a list with the output unchanged. *)
Theorem ios_filter_never_raises device user pw st :
  exists v st',
    ios device user pw st = (Ret v, st')
    /\ posts st' = posts st /\ files st' = files st
    /\ ((v = PNone
         /\ stdout st'
            = stdout st ++ [Line (lit "Couldn't login into " ++ device)])
        \/ (exists recs, v = PList recs /\ stdout st' = stdout st)).
Proof. apply ios_outcome. Qed.

(** X3: the Structured-B extractor never raises, sends no HTTP request
    and writes no file; it returns [None] with exactly one diagnostic
    line added to the output, or a list with the output unchanged. *)
Theorem eos_filter_never_raises device st :
  exists v st',
    eos device st = (Ret v, st')
    /\ posts st' = posts st /\ files st' = files st
    /\ ((v = PNone
         /\ stdout st'
            = stdout st ++ [Line (lit "Couldn't login into: " ++ device)])
        \/ (exists recs, v = PList recs /\ stdout st' = stdout st)).
Proof. apply eos_outcome. Qed.

(** X4: whatever the device answers, the Structured-A extractor writes no
    file, sends its request once or twice and nothing else, and prints
    nothing -- except when it returns [None] for a response without the
    success flag, where it prints the one failure line. *)
Theorem nxos_filter_effects device user pw st :
  files (snd (nxos device user (Some pw) st)) = files st
  /\ (posts (snd (nxos device user (Some pw) st))
      = posts st ++ [nxos_request device user pw]
      \/ posts (snd (nxos device user (Some pw) st))
         = posts st ++ [nxos_request device user pw;
                        nxos_request device user pw])
  /\ (stdout (snd (nxos device user (Some pw) st)) = stdout st
      \/ (fst (nxos device user (Some pw) st) = Ret PNone
          /\ exists r w1,
              requests_post (nxos_request device user pw) (world st)
              = (Ret r, w1)
              /\ ok r = false
              /\ stdout (snd (nxos device user (Some pw) st))
                 = stdout st ++ [Line (nxos_failed_message r)])).
Proof. apply nxos_outcome. Qed.

(** ** Exceptions of the Structured-A extractor *)

(** X5: an exception that leaves the Structured-A extractor ends [main]:
    when the rows before a Nexus are done and the extractor raises on it,
    [main] raises the same exception in the same state; the rows after it
    are not visited, nothing is pretty-printed and no file is written. *)
Theorem main_aborts_when_nxos_raises
        st user w1 pw w2 before d rest w3 inv1 st1 e st2 :
  input (lit "What is your username: ") (world st) = (Ret user, w1) ->
  getpass (lit "What is your password: ") w1 = (Ret pw, w2) ->
  read_inventory (lit "inventory.csv") w2 = (Ret (before ++ d :: rest), w3) ->
  loop user pw before [] (moved st w3) = (Ret inv1, st1) ->
  os d = lit "nxos" ->
  nxos (ip d) user (Some pw) st1 = (Raise e, st2) ->
  run st = (Raise e, st2) /\ files st2 = files st.
Proof.
  intros Hin Hpw Hinv Hloop Hos Hnx. split.
  - unfold main, bind, external, pprint, write_file, ret.
    rewrite Hin. cbn [world moved]. rewrite Hpw. cbn [world moved].
    rewrite Hinv.
    change (moved (moved (moved st w1) w2) w3) with (moved st w3).
    rewrite loop_app, Hloop, loop_cons.
    rewrite step_nxos by assumption. now rewrite Hnx.
  - pose proof (loop_frame user pw before [] (moved st w3)) as F.
    rewrite Hloop in F. cbn in F.
    pose proof (nxos_outcome (ip d) user pw st1) as (G & _).
    rewrite Hnx in G. cbn in G. congruence.
Qed.

(** X6: the Structured-A extractor has no handler: an exception of the
    first request leaves it after one request; with the success flag on
    the first response, an exception of the second request, or of decoding
    its body, leaves it after two. *)
Theorem nxos_transport_errors_escape device user pw st :
  (forall e w1,
      requests_post (nxos_request device user pw) (world st) = (Raise e, w1) ->
      nxos device user (Some pw) st
      = (Raise e, moved (posted st (nxos_request device user pw)) w1))
  /\ (forall r1 w1 e w2,
         requests_post (nxos_request device user pw) (world st) = (Ret r1, w1) ->
         ok r1 = true ->
         requests_post (nxos_request device user pw) w1 = (Raise e, w2) ->
         nxos device user (Some pw) st
         = (Raise e, twice st (nxos_request device user pw) w1 w2))
  /\ (forall r1 w1 r2 w2 e,
         requests_post (nxos_request device user pw) (world st) = (Ret r1, w1) ->
         ok r1 = true ->
         requests_post (nxos_request device user pw) w1 = (Ret r2, w2) ->
         json r2 = Raise e ->
         nxos device user (Some pw) st
         = (Raise e, twice st (nxos_request device user pw) w1 w2)).
Proof.
  split; [|split].
  - intros e w1 H1. now apply nxos_first_error.
  - intros r1 w1 e w2 H1 Hok H2.
    now rewrite (nxos_ok _ _ _ _ _ _ H1 Hok H2).
  - intros r1 w1 r2 w2 e H1 Hok H2 Hj.
    rewrite (nxos_ok _ _ _ _ _ _ H1 Hok H2). now rewrite Hj.
Qed.

(** ** Entries and tables of another shape *)

(** X7: in the Structured-A extractor the first entry that cannot give
    its three values decides: the extractor raises what that entry raises
    for the first of [port_id], [intf_id], [device_id] it cannot give (a
    [KeyError] of that key, or a [TypeError] when the entry is no
    mapping), and the records of the entries before it are lost. *)
Theorem nxos_incomplete_entry_raises
        device user pw st r1 w1 r2 w2 doc tbl good e rest x :
  requests_post (nxos_request device user pw) (world st) = (Ret r1, w1) ->
  ok r1 = true ->
  requests_post (nxos_request device user pw) w1 = (Ret r2, w2) ->
  json r2 = Ret doc ->
  getpath doc nxos_path = Ret tbl ->
  py_iter tbl = Ret (good ++ e :: rest) ->
  Forall (fun g =>
            entry_error (lit "port_id") (lit "intf_id") (lit "device_id") g
            = None) good ->
  entry_error (lit "port_id") (lit "intf_id") (lit "device_id") e = Some x ->
  nxos device user (Some pw) st
  = (Raise x, twice st (nxos_request device user pw) w1 w2)
  /\ (x = TypeError
      \/ exists k,
          In k [lit "port_id"; lit "intf_id"; lit "device_id"]
          /\ x = KeyError (PStr k)).
Proof.
  intros H1 Hok H2 Hj Hp Hi Hg He. split.
  - rewrite (nxos_ok _ _ _ _ _ _ H1 Hok H2). rewrite Hj, Hp, Hi.
    now apply body_loop_error.
  - now apply (entry_error_kind _ _ _ _ He).
Qed.

(** X8: in the Structured-B extractor one entry that cannot give its
    three values anywhere in the table makes the whole device [None], with
    the diagnostic line; the records of the other entries are not
    returned. *)
Theorem eos_incomplete_entry_skips_device
        device st res st' lldp_data tbl entries e x :
  eos_result device st = (Ret res, st') ->
  getindex res 0 = Ret lldp_data ->
  getpath lldp_data eos_path = Ret tbl ->
  py_iter tbl = Ret entries ->
  In e entries ->
  entry_error (lit "neighborPort") (lit "port") (lit "neighborDevice") e
  = Some x ->
  eos device st
  = (Ret PNone, say st' (Line (lit "Couldn't login into: " ++ device))).
Proof.
  intros Hr Hi Hp Hit Hin He.
  rewrite eos_filter_spec, eos_body_spec, Hr, Hi, Hp, Hit.
  destruct (@body_loop_bad (lit "neighborPort") (lit "port")
              (lit "neighborDevice") entries e x st' Hin He) as (y & ->).
  reflexivity.
Qed.

(** X9: a table that is no list -- a single row given as the mapping
    itself, a string, a number, [None] -- and is not empty makes the
    Structured-A extractor raise [TypeError] and the Structured-B
    extractor return [None] with its diagnostic. *)
Theorem table_not_a_list tbl :
  (forall l, tbl <> PList l) -> tbl <> PDict [] -> tbl <> PStr [] ->
  (forall device user pw st r1 w1 r2 w2 doc,
      requests_post (nxos_request device user pw) (world st) = (Ret r1, w1) ->
      ok r1 = true ->
      requests_post (nxos_request device user pw) w1 = (Ret r2, w2) ->
      json r2 = Ret doc ->
      getpath doc nxos_path = Ret tbl ->
      nxos device user (Some pw) st
      = (Raise TypeError, twice st (nxos_request device user pw) w1 w2))
  /\ (forall device st res st' lldp_data,
         eos_result device st = (Ret res, st') ->
         getindex res 0 = Ret lldp_data ->
         getpath lldp_data eos_path = Ret tbl ->
         eos device st
         = (Ret PNone, say st' (Line (lit "Couldn't login into: " ++ device)))).
Proof.
  intros HL HD HS. split.
  - intros device user pw st r1 w1 r2 w2 doc H1 Hok H2 Hj Hp.
    rewrite (nxos_ok _ _ _ _ _ _ H1 Hok H2). rewrite Hj, Hp.
    pose proof (odd_table_error (lit "port_id") (lit "intf_id")
                  (lit "device_id")
                  (twice st (nxos_request device user pw) w1 w2) HL HD HS)
      as T.
    destruct (py_iter tbl) as [entries|e]; [exact T | now rewrite T].
  - intros device st res st' d0 Hr Hi Hp.
    rewrite eos_filter_spec, eos_body_spec, Hr, Hi, Hp.
    pose proof (odd_table_error (lit "neighborPort") (lit "port")
                  (lit "neighborDevice") st' HL HD HS) as T.
    destruct (py_iter tbl) as [entries|e]; [now rewrite T | reflexivity].
Qed.

(** ** The run of [main] *)

(** X10: when the loop of [main] ends, the keys of the mapping are the
    hostnames of the inventory rows with a known [os] tag, each once, in
    the order of its first row, after the keys the mapping had; rows with
    another tag add no key. *)
Theorem main_loop_keys user pw inventory inv st inv' st' :
  loop user pw inventory inv st = (Ret inv', st') ->
  map fst inv'
  = fold_left add_key (map hostname (filter recognized inventory))
              (map fst inv).
Proof. apply loop_keys. Qed.

(** X11: an inventory without a Nexus cannot fail: if the prompts, the
    inventory and the date can be read, [main] returns, having sent no HTTP
    request and written one file with the JSON text of a mapping that has a
    key for each row with a known tag. *)
Theorem main_completes_without_nxos st user w1 pw w2 inventory w3 :
  input (lit "What is your username: ") (world st) = (Ret user, w1) ->
  getpass (lit "What is your password: ") w1 = (Ret pw, w2) ->
  read_inventory (lit "inventory.csv") w2 = (Ret inventory, w3) ->
  forallb (fun d => negb (str_eqb (os d) (lit "nxos"))) inventory = true ->
  (forall w, exists date w', date_today w = (Ret date, w')) ->
  exists inv st' date,
    run st = (Ret PNone, st')
    /\ posts st' = posts st
    /\ files st'
       = files st ++ [(lit "neighbors_" ++ date ++ lit ".json",
                       json_dumps (PDict inv))]
    /\ map fst inv
       = fold_left add_key (map hostname (filter recognized inventory)) [].
Proof.
  intros Hin Hpw Hinv Hno Hdate.
  destruct (loop_quiet user pw inventory [] (moved st w3) Hno)
    as (inv & st4 & Hloop & P & F).
  destruct (Hdate (world st4)) as (date & w5 & Hd).
  exists inv. eexists. exists date. split; [|split; [|split]].
  - eapply main_writes_mapping; eassumption.
  - cbn. exact P.
  - cbn. now rewrite F.
  - now apply loop_keys in Hloop.
Qed.

(** X12: [main] writes at most one file, as its last step: either it
    returns, having added exactly one file and having pretty-printed, last,
    the mapping whose JSON text the file holds; or it raises and the files
    are as before. *)
Theorem main_one_file_or_none st :
  (fst (run st) = Ret PNone
   /\ exists name inv,
       files (snd (run st)) = files st ++ [(name, json_dumps (PDict inv))]
       /\ exists out, stdout (snd (run st)) = out ++ [Pretty (PDict inv)])
  \/ (exists e, fst (run st) = Raise e /\ files (snd (run st)) = files st).
Proof.
  unfold main, bind, external, pprint, write_file, ret.
  destruct (input _ (world st)) as [[user|e] w1]; [|right; eexists; split; [reflexivity | cbn; auto]].
  cbn [world moved].
  destruct (getpass _ w1) as [[pw|e] w2]; [|right; eexists; split; [reflexivity | cbn; auto]].
  cbn [world moved].
  destruct (read_inventory _ w2) as [[inventory|e] w3]; [|right; eexists; split; [reflexivity | cbn; auto]].
  pose proof (loop_frame user pw inventory []
                (moved (moved (moved st w1) w2) w3)) as F.
  destruct (loop user pw inventory [] _) as [[inv|e] st4]; cbn in F;
    [|right; eexists; split; [reflexivity | cbn; auto]].
  cbn [world say].
  destruct (date_today (world st4)) as [[date|e] w5]; [|right; eexists; split; [reflexivity | cbn; auto]].
  left. split; [reflexivity|]. cbn.
  exists (lit "neighbors_" ++ date ++ lit ".json"), inv.
  rewrite F. split; [reflexivity|]. now exists (stdout st4).
Qed.


(** X17: of several inventory rows with one hostname the last one
    counts: when the loop ends, the value under the hostname of a row with
    a known tag, with no later row of that hostname, is the value its
    extractor returned when the row was processed. *)
Theorem duplicate_hostname_last_wins
        user pw before d rest inv st inv' st' :
  loop user pw (before ++ d :: rest) inv st = (Ret inv', st') ->
  recognized d = true ->
  (forall r, In r rest -> hostname r <> hostname d) ->
  exists inv1 st1 v st2,
    loop user pw before inv st = (Ret inv1, st1)
    /\ step user pw inv1 d st1 = (Ret (dict_set inv1 (hostname d) v), st2)
    /\ dict_get inv' (hostname d) = Some v.
Proof.
  intros H R Hrest. rewrite loop_app in H.
  destruct (loop user pw before inv st) as [[inv1|e] st1]; [|discriminate].
  rewrite loop_cons in H.
  destruct (step user pw inv1 d st1) as [[inv2|e] st2] eqn:E; [|discriminate].
  destruct (step_known _ _ _ _ _ R E) as (v & ->).
  exists inv1, st1, v, st2. split; [reflexivity|]. split; [exact E|].
  erewrite loop_keeps by eassumption. apply dict_get_set_same.
Qed.

(** ** The text of a well-formed table *)

(** X13: on CLI output made of any text without the marker, the header
    marker, a table of well-formed rows that does not contain the marker
    again, and trailing white space, the Text-Tabular extractor returns
    one record per row, in order: port id, local interface, device id. *)
Theorem ios_table_records device user pw st pre rows tail st' :
  ios_text device user pw st
  = (Ret (pre ++ port_id_marker ++ table rows ++ tail), st') ->
  starts_none port_id_marker pre (port_id_marker ++ table rows ++ tail)
  = true ->
  contains port_id_marker (table rows ++ tail) = false ->
  rows_ok rows = true ->
  forallb (accepts Space) tail = true ->
  stops Dot tail = true ->
  ios device user pw st = (Ret (PList (map row_record rows)), st').
Proof.
  intros Hf Hpre Hbody Hrows Htail Hstop.
  rewrite ios_filter_spec, ios_body_spec, Hf.
  rewrite (split_at_marker _ _ Hpre Hbody). cbn [list_get nth_error].
  unfold findall. rewrite findall_go_table by assumption.
  rewrite map_map. reflexivity.
Qed.

(** ** The password prompt of the switch classes *)

(** X15: without a password argument the two switch classes ask for one:
    if the prompt gives [p], the extractors go on as with the argument [p];
    if the prompt raises, the Structured-A extractor raises the same
    exception, having sent nothing, and the Text-Tabular extractor returns
    [None] with its diagnostic. *)
Theorem prompted_password device user st o w :
  getpass (lit "What is your password: ") (world st) = (o, w) ->
  match o with
  | Ret p =>
      nxos device user None st = nxos device user (Some p) (moved st w)
      /\ ios device user None st = ios device user (Some p) (moved st w)
  | Raise e =>
      nxos device user None st = (Raise e, moved st w)
      /\ ios device user None st
         = (Ret PNone,
            say (moved st w) (Line (lit "Couldn't login into " ++ device)))
  end.
Proof.
  intro H.
  unfold nxos_cdp_filter, ios_cdp_filter, ios_cdp_body, try_except,
    NxSwitch_init, IosSwitch_init, bind, external, ret.
  rewrite H. destruct o as [p|e]; split; reflexivity.
Qed.

End Extras.

(** X14: a row whose port id column is blank takes the next line: the
    white space before the last group runs over the line break, the whole
    next row becomes the [neighbor_interface] of the record, and the next
    row gives no record of its own. *)
Theorem blank_port_takes_next_row r w next tail :
  row_ok r = true -> platform_clear r = true ->
  gap w = true ->
  row_ok next = true -> forallb (accepts Dot) (render next) = true ->
  forallb (accepts Space) tail = true -> stops Dot tail = true ->
  map tuple_record
      (findall ios_regex ios_regex_groups
               (render_blank r ++ w ++ render next ++ tail))
  = [neighbor_record (PStr (render next))
                     (PStr (r_if1 r ++ sp :: r_if2 r)) (PStr (r_dev r))].
Proof.
  intros Hok Hclear Hw Hnext Hline Htail Hstop.
  assert (Hrest : line_rest (render next) = true).
  { pose proof (render_nonempty _ Hnext) as Hne.
    unfold row_ok in Hnext.
    repeat match type of Hnext with
           | _ && _ = true => apply andb_prop in Hnext as [Hnext _]
           end.
    unfold line_rest. unfold render in *.
    destruct (r_dev next) as [|c t]; [discriminate|].
    cbn [app]. cbn [app] in Hline. rewrite Hline.
    cbn [token forallb] in Hnext. apply andb_prop in Hnext as [-> _].
    reflexivity. }
  assert (Hm : row_ok (with_port r w (render next)) = true).
  { clear Hnext. unfold row_ok in *.
    cbn [with_port r_dev gap1 r_if1 r_if2 gap2 r_hold gap3 r_caps gap4
           r_plat gap5 r_port].
    repeat match goal with
           | H : _ && _ = true |- _ => apply andb_prop in H as [? ?]
           end.
    repeat (apply andb_true_intro; split); assumption. }
  replace (render_blank r ++ w ++ render next ++ tail)
    with (render (with_port r w (render next)) ++ tail)
    by (unfold render, render_blank; cbn [with_port r_dev gap1 r_if1 r_if2
          gap2 r_hold gap3 r_caps gap4 r_plat gap5 r_port];
        now rewrite <- !app_assoc).
  unfold findall. rewrite findall_go_row by assumption.
  rewrite <- (app_nil_r tail), (findall_go_blank _ tail [] Htail).
  reflexivity.
Qed.

(** ** The extra properties on the scripted devices *)

Import MoreSamples.

Lemma main_aborts_when_nxos_raises_witness :
  loop admin secret [e1] [] (start w_down)
  = (Ret [(lit "e1", PList [])], start w_down)
  /\ run_main (start w_down)
     = (Raise (OtherError (lit "ConnectionError")),
        snd (nxos (ip n1) admin (Some secret) (start w_down)))
  /\ files (snd (nxos (ip n1) admin (Some secret) (start w_down)))
     = files (start w_down).
Proof.
  split; [reflexivity|].
  apply (@main_aborts_when_nxos_raises script unit unit requests_post getpass
           ConnectHandler send_command connect_to enable input read_inventory
           date_today (start w_down) admin w_down secret w_down [e1] n1 [i1]
           w_down [(lit "e1", PList [])] (start w_down)
           (OtherError (lit "ConnectionError"))
           (snd (nxos (ip n1) admin (Some secret) (start w_down))));
    reflexivity.
Defined.

Lemma nxos_transport_errors_escape_witness :
  nxos (ip n1) admin (Some secret) (start w_down)
  = (Raise (OtherError (lit "ConnectionError")),
     snd (nxos (ip n1) admin (Some secret) (start w_down)))
  /\ nxos (ip n1) admin (Some secret) (start w_once)
     = (Raise (OtherError (lit "ConnectionError")),
        snd (nxos (ip n1) admin (Some secret) (start w_once)))
  /\ nxos (ip n1) admin (Some secret) (start w_garbled)
     = (Raise (OtherError (lit "JSONDecodeError")),
        snd (nxos (ip n1) admin (Some secret) (start w_garbled))).
Proof.
  split; [|split].
  - apply (proj1 (@nxos_transport_errors_escape script requests_post getpass
                    (ip n1) admin secret (start w_down))
                 (OtherError (lit "ConnectionError")) w_down).
    reflexivity.
  - apply (proj1 (proj2 (@nxos_transport_errors_escape script requests_post
                           getpass (ip n1) admin secret (start w_once)))
                 (http_ok (nxos_doc (PList [])))
                 (world (snd (nxos (ip n1) admin (Some secret) (start w_once))))
                 (OtherError (lit "ConnectionError"))
                 (world (snd (nxos (ip n1) admin (Some secret) (start w_once)))));
      reflexivity.
  - apply (proj2 (proj2 (@nxos_transport_errors_escape script requests_post
                           getpass (ip n1) admin secret (start w_garbled)))
                 (http_ok (nxos_doc (PList [])))
                 {| nx_answers := [Ret http_garbled];
                    ios_answer := Raise unreachable;
                    eos_answer := Raise unreachable;
                    inventory_rows := [n1] |}
                 http_garbled
                 (world (snd (nxos (ip n1) admin (Some secret) (start w_garbled))))
                 (OtherError (lit "JSONDecodeError")));
      reflexivity.
Defined.

Lemma nxos_incomplete_entry_raises_witness :
  nxos (ip n1) admin (Some secret) (start w_incomplete)
  = (Raise (KeyError (PStr (lit "intf_id"))),
     snd (nxos (ip n1) admin (Some secret) (start w_incomplete)))
  /\ (KeyError (PStr (lit "intf_id")) = TypeError
      \/ exists k,
          In k [lit "port_id"; lit "intf_id"; lit "device_id"]
          /\ KeyError (PStr (lit "intf_id")) = KeyError (PStr k)).
Proof.
  apply (@nxos_incomplete_entry_raises script requests_post getpass
           (ip n1) admin secret (start w_incomplete)
           (http_ok (nxos_doc (PList [entry_a "Ethernet1/1" "mgmt0" "core1";
                                      entry_no_intf])))
           {| nx_answers :=
                [Ret (http_ok (nxos_doc (PList [entry_a "Ethernet1/1" "mgmt0" "core1";
                                                entry_no_intf])))];
              ios_answer := Raise unreachable;
              eos_answer := Ret (eos_doc [entry_b "Ethernet1" "Ethernet2" "leaf1";
                                          entry_no_device]);
              inventory_rows := [n1; e1] |}
           (http_ok (nxos_doc (PList [entry_a "Ethernet1/1" "mgmt0" "core1";
                                      entry_no_intf])))
           (world (snd (nxos (ip n1) admin (Some secret) (start w_incomplete))))
           (nxos_doc (PList [entry_a "Ethernet1/1" "mgmt0" "core1";
                             entry_no_intf]))
           (PList [entry_a "Ethernet1/1" "mgmt0" "core1"; entry_no_intf])
           [entry_a "Ethernet1/1" "mgmt0" "core1"] entry_no_intf []
           (KeyError (PStr (lit "intf_id"))));
    try reflexivity.
  repeat constructor.
Defined.

Lemma eos_incomplete_entry_skips_device_witness :
  eos (hostname e1) (start w_incomplete)
  = (Ret PNone,
     say (start w_incomplete) (Line (lit "Couldn't login into: e1"))).
Proof.
  apply (@eos_incomplete_entry_skips_device script unit connect_to enable
           (hostname e1) (start w_incomplete)
           (eos_doc [entry_b "Ethernet1" "Ethernet2" "leaf1"; entry_no_device])
           (start w_incomplete)
           (PDict [(lit "result",
                    PDict [(lit "lldpNeighbors",
                            PList [entry_b "Ethernet1" "Ethernet2" "leaf1";
                                   entry_no_device])])])
           (PList [entry_b "Ethernet1" "Ethernet2" "leaf1"; entry_no_device])
           [entry_b "Ethernet1" "Ethernet2" "leaf1"; entry_no_device]
           entry_no_device (KeyError (PStr (lit "neighborDevice"))));
    try reflexivity.
  right. left. reflexivity.
Defined.

Lemma table_not_a_list_witness :
  nxos (ip n1) admin (Some secret) (start w_single)
  = (Raise TypeError, snd (nxos (ip n1) admin (Some secret) (start w_single)))
  /\ eos (hostname e1) (start w_single)
     = (Ret PNone, say (start w_single) (Line (lit "Couldn't login into: e1"))).
Proof.
  split.
  - apply (proj1 (@table_not_a_list script unit requests_post getpass
                    connect_to enable
                    (entry_a "Ethernet1/1" "mgmt0" "core1")
                    ltac:(discriminate) ltac:(discriminate)
                    ltac:(discriminate))
                 (ip n1) admin secret (start w_single)
                 (http_ok (nxos_doc (entry_a "Ethernet1/1" "mgmt0" "core1")))
                 {| nx_answers :=
                      [Ret (http_ok (nxos_doc (entry_a "Ethernet1/1" "mgmt0" "core1")))];
                    ios_answer := ios_answer w_single;
                    eos_answer := eos_answer w_single;
                    inventory_rows := [n1; e1] |}
                 (http_ok (nxos_doc (entry_a "Ethernet1/1" "mgmt0" "core1")))
                 (world (snd (nxos (ip n1) admin (Some secret) (start w_single))))
                 (nxos_doc (entry_a "Ethernet1/1" "mgmt0" "core1")));
      reflexivity.
  - apply (proj2 (@table_not_a_list script unit requests_post getpass
                    connect_to enable
                    (entry_b "Ethernet1" "Ethernet2" "leaf1")
                    ltac:(discriminate) ltac:(discriminate)
                    ltac:(discriminate))
                 (hostname e1) (start w_single)
                 (PList [PDict [(lit "result",
                                 PDict [(lit "lldpNeighbors",
                                         entry_b "Ethernet1" "Ethernet2" "leaf1")])]])
                 (start w_single)
                 (PDict [(lit "result",
                          PDict [(lit "lldpNeighbors",
                                  entry_b "Ethernet1" "Ethernet2" "leaf1")])]));
      reflexivity.
Defined.

Lemma main_loop_keys_witness :
  loop admin secret [i1; j1; e1; i1_again] [] (start w_rows)
  = (Ret [(lit "i1", PList []); (lit "e1", PList [])], start w_rows)
  /\ map fst [(lit "i1", PList []); (lit "e1", PList [])]
     = fold_left add_key
         (map hostname (filter recognized [i1; j1; e1; i1_again])) (map fst (@nil (str * pyval))).
Proof.
  split; [vm_compute; reflexivity|].
  apply (@main_loop_keys script unit unit requests_post getpass ConnectHandler
           send_command connect_to enable admin secret
           [i1; j1; e1; i1_again] [] (start w_rows)
           [(lit "i1", PList []); (lit "e1", PList [])] (start w_rows)).
  vm_compute. reflexivity.
Defined.

Lemma main_completes_without_nxos_witness :
  exists inv st' date,
    run_main (start w_rows) = (Ret PNone, st')
    /\ posts st' = posts (start w_rows)
    /\ files st'
       = files (start w_rows)
           ++ [(lit "neighbors_" ++ date ++ lit ".json",
                json_dumps (PDict inv))]
    /\ map fst inv
       = fold_left add_key
           (map hostname (filter recognized [i1; j1; e1; i1_again])) [].
Proof.
  apply (@main_completes_without_nxos script unit unit requests_post getpass
           ConnectHandler send_command connect_to enable input read_inventory
           date_today (start w_rows) admin w_rows secret w_rows
           [i1; j1; e1; i1_again] w_rows); try reflexivity.
  intro w. exists (lit "2017-03-01"), w. reflexivity.
Defined.

Lemma ios_table_records_witness :
  ios (ip i1) admin (Some secret) (start w_rows)
  = (Ret (PList (map row_record sample_rows)), start w_rows).
Proof.
  apply (@ios_table_records script unit getpass ConnectHandler send_command
           (ip i1) admin (Some secret) (start w_rows) cdp_preamble
           sample_rows [nl] (start w_rows));
    vm_compute; reflexivity.
Defined.

Lemma blank_port_takes_next_row_witness :
  map tuple_record
      (findall ios_regex ios_regex_groups
               (render_blank (hd swallowed_row sample_rows) ++ [nl]
                  ++ render swallowed_row ++ [nl]))
  = [neighbor_record (PStr (lit "sw2  Gig 0/3  130  R X Gig 0/2"))
                     (PStr (lit "Eth 0")) (PStr (lit "lab-7206"))].
Proof.
  apply (@blank_port_takes_next_row (hd swallowed_row sample_rows) [nl]
           swallowed_row [nl]); reflexivity.
Defined.

Lemma prompted_password_witness :
  nxos (ip n1) admin None (start w_two)
  = nxos (ip n1) admin (Some secret) (moved (start w_two) w_two)
  /\ ios (ip n1) admin None (start w_two)
     = ios (ip n1) admin (Some secret) (moved (start w_two) w_two).
Proof.
  apply (@prompted_password script unit requests_post getpass ConnectHandler
           send_command (ip n1) admin (start w_two) (Ret secret) w_two).
  reflexivity.
Defined.

Lemma duplicate_hostname_last_wins_witness :
  exists inv1 st1 v st2,
    loop admin secret [i1; j1; e1] [] (start w_rows) = (Ret inv1, st1)
    /\ main_step requests_post getpass ConnectHandler send_command connect_to
         enable admin secret inv1 i1_again st1
       = (Ret (dict_set inv1 (hostname i1_again) v), st2)
    /\ dict_get [(lit "i1", PList []); (lit "e1", PList [])]
                (hostname i1_again) = Some v.
Proof.
  apply (@duplicate_hostname_last_wins script unit unit requests_post getpass
           ConnectHandler send_command connect_to enable admin secret
           [i1; j1; e1] i1_again [] [] (start w_rows)
           [(lit "i1", PList []); (lit "e1", PList [])] (start w_rows)).
  - vm_compute. reflexivity.
  - reflexivity.
  - intros r [].
Defined.

